(** * Laplace approximation for Gaussian-process inference:
      a shallow embedding of [SingleLaplaceInferenceMethod.cpp]

    The C++ type [float64_t] is idealised as the real numbers [R]: rounding,
    infinities and NaN are not modelled (the one place where the source
    relies on an infinity, the initial [Psi_Old = CMath::INFTY] of the Newton
    loop, is modelled by an explicit extra value).  [SGVector<float64_t>] is
    a list of reals, [SGMatrix<float64_t>] a list of rows.  Eigen's
    element-wise operations are written out.  Eigen's decompositions
    ([LLT], [FullPivLU], triangular solves), Brent's [local_min] and the
    base class's [update] are not part of this translation unit and enter as
    parameters; the likelihood, the mean function and a first-order
    minimizer are records of the functions this file calls on them. *)

From Stdlib Require Import Reals Lra Lia String ZArith Bool List.
Import ListNotations.

Open Scope R_scope.

(** ** Scalars, vectors and matrices *)

Definition float64_t := R.
Definition SGVector := list float64_t.
Definition SGMatrix := list (list float64_t).

Definition Rltb (a b : R) : bool := if Rlt_dec a b then true else false.
Definition Rgtb (a b : R) : bool := Rltb b a.

Module Eigen.

(** Coefficient-wise binary operation on two vectors of the same size. *)
Fixpoint zipWith {A B C : Type} (f : A -> B -> C) (u : list A) (v : list B) : list C :=
  match u, v with
  | x :: u', y :: v' => f x y :: zipWith f u' v'
  | _, _ => []
  end.

Definition vadd (u v : SGVector) : SGVector := zipWith Rplus u v.
Definition vsub (u v : SGVector) : SGVector := zipWith Rminus u v.
Definition cwiseProduct (u v : SGVector) : SGVector := zipWith Rmult u v.
Definition cwiseSqrt (v : SGVector) : SGVector := map sqrt v.
Definition cwiseAbs (v : SGVector) : SGVector := map Rabs v.
Definition vneg (v : SGVector) : SGVector := map Ropp v.

(** [v * c] and [c * v] for a scalar [c]; [v / c]. *)
Definition vmulr (v : SGVector) (c : R) : SGVector := map (fun x => x * c) v.
Definition vmull (c : R) (v : SGVector) : SGVector := map (fun x => c * x) v.
Definition vdivr (v : SGVector) (c : R) : SGVector := map (fun x => x / c) v.

Definition sum (v : SGVector) : R := fold_right Rplus 0 v.
Definition dot (u v : SGVector) : R := sum (cwiseProduct u v).

(** [minCoeff] of a vector; Eigen requires the vector to be non-empty. *)
Definition minCoeff (v : SGVector) : R :=
  match v with
  | [] => 0
  | x :: v' => fold_left Rmin v' x
  end.

Definition Zero (n : nat) : SGVector := repeat 0 n.

(** Matrices, as lists of rows. *)
Definition num_rows (M : SGMatrix) : nat := length M.
Definition num_cols (M : SGMatrix) : nat :=
  match M with
  | [] => O
  | r :: _ => length r
  end.

Definition mmulr (M : SGMatrix) (c : R) : SGMatrix := map (fun r => vmulr r c) M.
Definition mneg (M : SGMatrix) : SGMatrix := map vneg M.
Definition madd (A B : SGMatrix) : SGMatrix := zipWith vadd A B.
Definition mcwiseProduct (A B : SGMatrix) : SGMatrix := zipWith cwiseProduct A B.

(** Matrix times column vector. *)
Definition mulv (M : SGMatrix) (v : SGVector) : SGVector := map (fun r => dot r v) M.
(** Row vector times matrix, [u.adjoint() * M]. *)
Definition vmul (u : SGVector) (M : SGMatrix) : SGVector :=
  fold_right vadd (Zero (num_cols M)) (zipWith vmull u M).

(** [u * v.transpose()]. *)
Definition outer (u v : SGVector) : SGMatrix := map (fun x => vmull x v) u.

(** [M * w.asDiagonal()] scales column [j] by [w_j];
    [w.asDiagonal() * M] scales row [i] by [w_i]. *)
Definition mul_asDiagonal (M : SGMatrix) (w : SGVector) : SGMatrix :=
  map (fun r => cwiseProduct r w) M.
Definition asDiagonal_mul (w : SGVector) (M : SGMatrix) : SGMatrix :=
  zipWith vmull w M.

(** [MatrixXd(w.asDiagonal())]. *)
Definition unit_row (n i : nat) (x : R) : SGVector :=
  map (fun j => if Nat.eqb i j then x else 0) (seq 0 n).
Definition asDiagonal (w : SGVector) : SGMatrix :=
  map (fun i => unit_row (length w) i (nth i w 0)) (seq 0 (length w)).

(** [MatrixXd::Identity(rows, cols)]. *)
Definition Identity (rows cols : nat) : SGMatrix :=
  map (fun i => unit_row cols i 1) (seq 0 rows).

Definition diagonal (M : SGMatrix) : SGVector :=
  map (fun i => nth i (nth i M []) 0) (seq 0 (Nat.min (num_rows M) (num_cols M))).

Definition msum (M : SGMatrix) : R := sum (map sum M).
Definition rowwise_sum (M : SGMatrix) : SGVector := map sum M.
Definition colwise_sum (M : SGMatrix) : SGVector :=
  fold_right vadd (Zero (num_cols M)) M.

(** The determinant by expansion along the first row; [FullPivLU]
    computes the same number from its pivots. *)
Fixpoint drop_nth {A : Type} (j : nat) (l : list A) : list A :=
  match l, j with
  | [], _ => []
  | _ :: l', O => l'
  | x :: l', S j' => x :: drop_nth j' l'
  end.

Fixpoint alt_sum (terms : list R) : R :=
  match terms with
  | [] => 0
  | t :: terms' => t - alt_sum terms'
  end.

Fixpoint det_fuel (n : nat) (M : SGMatrix) : R :=
  match n with
  | O => 1
  | S n' =>
      match M with
      | [] => 1
      | r :: rest =>
          alt_sum (map (fun j => nth j r 0 * det_fuel n' (map (drop_nth j) rest))
                       (seq 0 (length r)))
      end
  end.

Definition determinant (M : SGMatrix) : R := det_fuel (num_rows M) M.

End Eigen.
Import Eigen.

(** ** Errors

    [REQUIRE(cond, msg)] raises a [ShogunException] carrying the message when
    [cond] is false. *)

Inductive ShogunException : Type :=
| SG_ERROR (msg : string).

Inductive result (A : Type) : Type :=
| Ok (a : A)
| Raise (e : ShogunException).
Arguments Ok {A} a.
Arguments Raise {A} e.

Definition bind {A B : Type} (r : result A) (k : A -> result B) : result B :=
  match r with
  | Ok a => k a
  | Raise e => Raise e
  end.

Definition REQUIRE (cond : bool) (msg : string) : result unit :=
  if cond then Ok tt else Raise (SG_ERROR msg).

(** ** Collaborators

    Declared in other headers of the library; only their interface is used
    here. *)

Definition CFeatures := SGMatrix.
Definition CLabels := SGVector.
Definition get_num_labels (lab : CLabels) : nat := length lab.

Inductive ELikelihoodModelType : Type :=
| LT_NONE | LT_GAUSSIAN | LT_STUDENTST | LT_LOGIT | LT_PROBIT.

Definition is_LT_STUDENTST (t : ELikelihoodModelType) : bool :=
  match t with
  | LT_STUDENTST => true
  | _ => false
  end.

Record TParameter : Type := {
  m_name : string;
  get_num_elements : nat
}.

Record CLikelihoodModel : Type := {
  get_model_type : ELikelihoodModelType;
  (** [CStudentsTLikelihood::get_degrees_freedom]; read only when the model
      type is [LT_STUDENTST]. *)
  get_degrees_freedom : float64_t;
  get_log_probability_f : CLabels -> SGVector -> SGVector;
  (** third argument: the order of the derivative, 1, 2 or 3 *)
  get_log_probability_derivative_f : CLabels -> SGVector -> Z -> SGVector
}.

Record CMeanFunction : Type := {
  get_mean_vector : CFeatures -> SGVector;
  (** [None]: the two-argument overload; [Some i]: the overload with an index *)
  get_parameter_derivative : CFeatures -> TParameter -> option nat -> SGVector
}.

(** [SGVector<float64_t>(n)] allocates [n] entries with unspecified contents;
    each such vector below is assigned as a whole before it is read. *)
Definition SGVector_new (n : nat) : SGVector := Zero n.

(** [SGVector::scale(alpha)]: every entry is multiplied by [alpha]. *)
Definition SGVector_scale (v : SGVector) (alpha : float64_t) : SGVector := vmulr v alpha.

(** ** The minimizers *)

Record CSingleLaplaceNewtonOptimizer : Type := {
  m_iter : Z;
  m_tolerance : float64_t;
  m_opt_tolerance : float64_t;
  m_opt_max : float64_t
}.

(** A [FirstOrderMinimizer] drives a cost function through [get_cost],
    [get_gradient] and the variable reference; what it leaves in the variable
    is its result. *)
Record FirstOrderCostFunction : Type := {
  fo_get_cost : SGVector -> result float64_t;
  fo_get_gradient : SGVector -> result SGVector;
  fo_variable : SGVector
}.

Record FirstOrderMinimizer : Type := {
  fo_minimize : FirstOrderCostFunction -> SGVector
}.

Inductive Minimizer : Type :=
| Newton (opt : CSingleLaplaceNewtonOptimizer)
| FirstOrder (minimizer : FirstOrderMinimizer)
| OtherMinimizer.

(** ** The inference object *)

Record CSingleLaplaceInferenceMethod : Type := mkInference {
  m_features : CFeatures;
  m_labels : CLabels;
  m_model : CLikelihoodModel;
  m_mean : CMeanFunction;
  m_minimizer : Minimizer;
  m_ktrtr : SGMatrix;
  m_log_scale : float64_t;
  parameter_hash_changed : bool;
  m_gradient_update : bool;
  m_alpha : SGVector;
  m_mu : SGVector;
  m_mean_f : SGVector;
  m_W : SGVector;
  m_sW : SGVector;
  m_dlp : SGVector;
  m_d2lp : SGVector;
  m_d3lp : SGVector;
  m_L : SGMatrix;
  m_Z : SGMatrix;
  m_g : SGVector;
  m_dfhat : SGVector;
  m_Psi : float64_t
}.

Section Setters.
Variable o : CSingleLaplaceInferenceMethod.

Definition set_hash (b : bool) (g : bool) :=
  mkInference (m_features o) (m_labels o) (m_model o) (m_mean o) (m_minimizer o)
    (m_ktrtr o) (m_log_scale o) b g
    (m_alpha o) (m_mu o) (m_mean_f o) (m_W o) (m_sW o) (m_dlp o) (m_d2lp o)
    (m_d3lp o) (m_L o) (m_Z o) (m_g o) (m_dfhat o) (m_Psi o).
Definition set_alpha (v : SGVector) :=
  mkInference (m_features o) (m_labels o) (m_model o) (m_mean o) (m_minimizer o)
    (m_ktrtr o) (m_log_scale o) (parameter_hash_changed o) (m_gradient_update o)
    v (m_mu o) (m_mean_f o) (m_W o) (m_sW o) (m_dlp o) (m_d2lp o)
    (m_d3lp o) (m_L o) (m_Z o) (m_g o) (m_dfhat o) (m_Psi o).
Definition set_mu (v : SGVector) :=
  mkInference (m_features o) (m_labels o) (m_model o) (m_mean o) (m_minimizer o)
    (m_ktrtr o) (m_log_scale o) (parameter_hash_changed o) (m_gradient_update o)
    (m_alpha o) v (m_mean_f o) (m_W o) (m_sW o) (m_dlp o) (m_d2lp o)
    (m_d3lp o) (m_L o) (m_Z o) (m_g o) (m_dfhat o) (m_Psi o).
Definition set_mean_f (v : SGVector) :=
  mkInference (m_features o) (m_labels o) (m_model o) (m_mean o) (m_minimizer o)
    (m_ktrtr o) (m_log_scale o) (parameter_hash_changed o) (m_gradient_update o)
    (m_alpha o) (m_mu o) v (m_W o) (m_sW o) (m_dlp o) (m_d2lp o)
    (m_d3lp o) (m_L o) (m_Z o) (m_g o) (m_dfhat o) (m_Psi o).
Definition set_W (v : SGVector) :=
  mkInference (m_features o) (m_labels o) (m_model o) (m_mean o) (m_minimizer o)
    (m_ktrtr o) (m_log_scale o) (parameter_hash_changed o) (m_gradient_update o)
    (m_alpha o) (m_mu o) (m_mean_f o) v (m_sW o) (m_dlp o) (m_d2lp o)
    (m_d3lp o) (m_L o) (m_Z o) (m_g o) (m_dfhat o) (m_Psi o).
Definition set_sW (v : SGVector) :=
  mkInference (m_features o) (m_labels o) (m_model o) (m_mean o) (m_minimizer o)
    (m_ktrtr o) (m_log_scale o) (parameter_hash_changed o) (m_gradient_update o)
    (m_alpha o) (m_mu o) (m_mean_f o) (m_W o) v (m_dlp o) (m_d2lp o)
    (m_d3lp o) (m_L o) (m_Z o) (m_g o) (m_dfhat o) (m_Psi o).
Definition set_dlp (v : SGVector) :=
  mkInference (m_features o) (m_labels o) (m_model o) (m_mean o) (m_minimizer o)
    (m_ktrtr o) (m_log_scale o) (parameter_hash_changed o) (m_gradient_update o)
    (m_alpha o) (m_mu o) (m_mean_f o) (m_W o) (m_sW o) v (m_d2lp o)
    (m_d3lp o) (m_L o) (m_Z o) (m_g o) (m_dfhat o) (m_Psi o).
Definition set_d2lp (v : SGVector) :=
  mkInference (m_features o) (m_labels o) (m_model o) (m_mean o) (m_minimizer o)
    (m_ktrtr o) (m_log_scale o) (parameter_hash_changed o) (m_gradient_update o)
    (m_alpha o) (m_mu o) (m_mean_f o) (m_W o) (m_sW o) (m_dlp o) v
    (m_d3lp o) (m_L o) (m_Z o) (m_g o) (m_dfhat o) (m_Psi o).
Definition set_d3lp (v : SGVector) :=
  mkInference (m_features o) (m_labels o) (m_model o) (m_mean o) (m_minimizer o)
    (m_ktrtr o) (m_log_scale o) (parameter_hash_changed o) (m_gradient_update o)
    (m_alpha o) (m_mu o) (m_mean_f o) (m_W o) (m_sW o) (m_dlp o) (m_d2lp o)
    v (m_L o) (m_Z o) (m_g o) (m_dfhat o) (m_Psi o).
Definition set_L (M : SGMatrix) :=
  mkInference (m_features o) (m_labels o) (m_model o) (m_mean o) (m_minimizer o)
    (m_ktrtr o) (m_log_scale o) (parameter_hash_changed o) (m_gradient_update o)
    (m_alpha o) (m_mu o) (m_mean_f o) (m_W o) (m_sW o) (m_dlp o) (m_d2lp o)
    (m_d3lp o) M (m_Z o) (m_g o) (m_dfhat o) (m_Psi o).
Definition set_Z (M : SGMatrix) :=
  mkInference (m_features o) (m_labels o) (m_model o) (m_mean o) (m_minimizer o)
    (m_ktrtr o) (m_log_scale o) (parameter_hash_changed o) (m_gradient_update o)
    (m_alpha o) (m_mu o) (m_mean_f o) (m_W o) (m_sW o) (m_dlp o) (m_d2lp o)
    (m_d3lp o) (m_L o) M (m_g o) (m_dfhat o) (m_Psi o).
Definition set_g (v : SGVector) :=
  mkInference (m_features o) (m_labels o) (m_model o) (m_mean o) (m_minimizer o)
    (m_ktrtr o) (m_log_scale o) (parameter_hash_changed o) (m_gradient_update o)
    (m_alpha o) (m_mu o) (m_mean_f o) (m_W o) (m_sW o) (m_dlp o) (m_d2lp o)
    (m_d3lp o) (m_L o) (m_Z o) v (m_dfhat o) (m_Psi o).
Definition set_dfhat (v : SGVector) :=
  mkInference (m_features o) (m_labels o) (m_model o) (m_mean o) (m_minimizer o)
    (m_ktrtr o) (m_log_scale o) (parameter_hash_changed o) (m_gradient_update o)
    (m_alpha o) (m_mu o) (m_mean_f o) (m_W o) (m_sW o) (m_dlp o) (m_d2lp o)
    (m_d3lp o) (m_L o) (m_Z o) (m_g o) v (m_Psi o).
Definition set_Psi (x : float64_t) :=
  mkInference (m_features o) (m_labels o) (m_model o) (m_mean o) (m_minimizer o)
    (m_ktrtr o) (m_log_scale o) (parameter_hash_changed o) (m_gradient_update o)
    (m_alpha o) (m_mu o) (m_mean_f o) (m_W o) (m_sW o) (m_dlp o) (m_d2lp o)
    (m_d3lp o) (m_L o) (m_Z o) (m_g o) (m_dfhat o) x.
End Setters.

(** ** Methods that read and write the inference object

    A method of the object is a function from the object before the call to
    its outcome together with the object after the call; a raised exception
    leaves the object as it was when the exception was raised. *)

Definition M (A : Type) : Type :=
  CSingleLaplaceInferenceMethod -> result A * CSingleLaplaceInferenceMethod.

Definition ret {A : Type} (a : A) : M A := fun o => (Ok a, o).

Definition bindM {A B : Type} (m : M A) (k : A -> M B) : M B :=
  fun o =>
    match m o with
    | (Ok a, o') => k a o'
    | (Raise e, o') => (Raise e, o')
    end.

Definition require (cond : bool) (msg : string) : M unit :=
  fun o => (REQUIRE cond msg, o).

Definition modify (f : CSingleLaplaceInferenceMethod -> CSingleLaplaceInferenceMethod) : M unit :=
  fun o => (Ok tt, f o).

Definition gets {A : Type} (f : CSingleLaplaceInferenceMethod -> A) : M A :=
  fun o => (Ok (f o), o).

Notation "x <- m ;; k" := (bindM m (fun x => k))
  (at level 61, m at next level, right associativity).
Notation "m ;;; k" := (bindM m (fun _ => k))
  (at level 61, right associativity).

(** [std::exp(m_log_scale * 2.0)], the factor applied to the kernel matrix. *)
Definition exp_2_log_scale (o : CSingleLaplaceInferenceMethod) : float64_t :=
  exp (m_log_scale o * 2).

(** ** [PsiLine], the objective handed to Brent's minimizer

    The members [alpha], [dlp], [W], [f] and [m] are pointers to the fields
    [m_alpha], [m_dlp], [m_W], [m_mu] and [m_mean_f] of the inference object;
    the other members are copies. *)

Record PsiLine : Type := {
  log_scale : float64_t;
  K : SGMatrix;
  dalpha : SGVector;
  start_alpha : SGVector;
  lik : CLikelihoodModel;
  lab : CLabels
}.

(** [PsiLine::operator()]: the value returned and the object afterwards. *)
Definition PsiLine_call (func : PsiLine) (x : float64_t)
    (o : CSingleLaplaceInferenceMethod) : float64_t * CSingleLaplaceInferenceMethod :=
  let o := set_alpha o (vadd (start_alpha func) (vmull x (dalpha func))) in
  let o := set_mu o (vadd (vmulr (mulv (K func) (m_alpha o)) (exp (log_scale func * 2)))
                          (m_mean_f o)) in
  let o := set_dlp o (get_log_probability_derivative_f (lik func) (lab func) (m_mu o) 1) in
  let o := set_W o (get_log_probability_derivative_f (lik func) (lab func) (m_mu o) 2) in
  let o := set_W o (SGVector_scale (m_W o) (-1)) in
  let result :=
    dot (m_alpha o) (vsub (m_mu o) (m_mean_f o)) / 2
    - sum (get_log_probability_f (lik func) (lab func) (m_mu o)) in
  (result, o).

(** What one call [local_min(a, b, t, f, x)] of [brent.h] does: the abscissae
    at which it evaluates [f], in order, the abscissa it stores in [x] and
    the value it returns. *)
Record brent_run : Type := {
  brent_evals : list float64_t;
  brent_x : float64_t;
  brent_fx : float64_t
}.

(** [Psi_Old] starts at [CMath::INFTY]. *)
Inductive psi_old : Type :=
| INFTY
| Finite (x : float64_t).

(** [Psi_Old - Psi_New > m_tolerance] *)
Definition gap_exceeds (Psi_Old : psi_old) (Psi_New tolerance : float64_t) : bool :=
  match Psi_Old with
  | INFTY => true
  | Finite p => Rgtb (p - Psi_New) tolerance
  end.

(** The local variables of [minimize] that live across iterations, with the
    object the optimizer points to. *)
Record newton_state : Type := {
  Psi_Old : psi_old;
  Psi_New : float64_t;
  iter : Z;
  target : CSingleLaplaceInferenceMethod
}.

Record minimize_outcome : Type := {
  returned_Psi : float64_t;
  target_after : CSingleLaplaceInferenceMethod;
  (** whether [SG_SWARNING("Max iterations (%d) reached, ...")] was issued *)
  warned_max_iterations : bool
}.

(** The cost function handed to a [FirstOrderMinimizer]. *)
Record SingleLaplaceInferenceMethodCostFunction : Type := {
  m_derivatives : SGVector;
  m_obj : option CSingleLaplaceInferenceMethod
}.

(** [get_name()] of the inference class, as declared in its header. *)
Definition get_name : string := "SingleLaplaceInferenceMethod".

Section Operations.

(** *** Library routines used by this file *)

(** [LLT<MatrixXd>(B).solve(y)] and [LLT<MatrixXd>(B).matrixU()] *)
Variable llt_solve : SGMatrix -> SGVector -> SGVector.
Variable llt_matrixU : SGMatrix -> SGMatrix.
(** [FullPivLU<MatrixXd>(A).determinant()] and [FullPivLU<MatrixXd>(A).inverse()] *)
Variable lu_determinant : SGMatrix -> float64_t.
Variable lu_inverse : SGMatrix -> SGMatrix.
(** [L.triangularView<Upper>().solve(B)] and
    [L.triangularView<Upper>().adjoint().solve(B)] *)
Variable upper_solve : SGMatrix -> SGMatrix -> SGMatrix.
Variable upper_adjoint_solve : SGMatrix -> SGMatrix -> SGMatrix.
(** [local_min(a, b, t, f, x)] *)
Variable local_min : float64_t -> float64_t -> float64_t -> (float64_t -> float64_t) -> brent_run.
(** [CInference::update()] of the base class *)
Variable CInference_update : CSingleLaplaceInferenceMethod -> CSingleLaplaceInferenceMethod.

Local Abbreviation Obj := CSingleLaplaceInferenceMethod.

(** *** [CSingleLaplaceNewtonOptimizer] *)

Definition init : CSingleLaplaceNewtonOptimizer :=
  {| m_iter := 20; m_tolerance := 1e-6; m_opt_tolerance := 1e-6; m_opt_max := 10 |}.

(** Lines 203-220: the correction of [W] when it has a negative entry. *)
Definition regularize_W (o : Obj) : Obj :=
  if Rltb (minCoeff (m_W o)) 0 then
    let df :=
      if is_LT_STUDENTST (get_model_type (m_model o))
      then get_degrees_freedom (m_model o)
      else 1 in
    set_W o (vadd (m_W o) (vmull (2 / df) (cwiseProduct (m_dlp o) (m_dlp o))))
  else o.

(** Line 223. *)
Definition compute_sW (o : Obj) : Obj := set_sW o (cwiseSqrt (m_W o)).

(** Lines 225-240: the Newton direction [dalpha]. *)
Definition newton_direction (o : Obj) : SGVector :=
  let L :=
    madd (mcwiseProduct (outer (m_sW o) (m_sW o)) (mmulr (m_ktrtr o) (exp_2_log_scale o)))
         (Identity (num_rows (m_ktrtr o)) (num_cols (m_ktrtr o))) in
  let b := vadd (cwiseProduct (m_W o) (vsub (m_mu o) (m_mean_f o))) (m_dlp o) in
  vsub (vsub b
             (cwiseProduct (m_sW o)
                (llt_solve L
                   (cwiseProduct (m_sW o)
                      (vmulr (mulv (m_ktrtr o) b) (exp_2_log_scale o))))))
       (m_alpha o).

(** Lines 244-259: Brent's minimizer on [PsiLine]; every evaluation of the
    objective writes the object. *)
Definition line_search (opt : CSingleLaplaceNewtonOptimizer) (dalpha : SGVector)
    (o : Obj) : float64_t * Obj :=
  let func :=
    {| log_scale := m_log_scale o; K := m_ktrtr o; dalpha := dalpha;
       start_alpha := m_alpha o; lik := m_model o; lab := m_labels o |} in
  let run := local_min 0 (m_opt_max opt) (m_opt_tolerance opt)
               (fun x => fst (PsiLine_call func x o)) in
  (brent_fx run,
   fold_left (fun o' x => snd (PsiLine_call func x o')) (brent_evals run) o).

Definition loop_cond (opt : CSingleLaplaceNewtonOptimizer) (s : newton_state) : bool :=
  gap_exceeds (Psi_Old s) (Psi_New s) (m_tolerance opt) && (iter s <? m_iter opt)%Z.

Definition loop_body (opt : CSingleLaplaceNewtonOptimizer) (s : newton_state) : newton_state :=
  let o := compute_sW (regularize_W (target s)) in
  let r := line_search opt (newton_direction o) o in
  {| Psi_Old := Finite (Psi_New s); Psi_New := fst r;
     iter := (iter s + 1)%Z; target := snd r |}.

(** The [while] loop of [minimize]; [n] bounds the iterations still
    allowed by [m_iter]. *)
Fixpoint newton_loop (opt : CSingleLaplaceNewtonOptimizer) (n : nat)
    (s : newton_state) : newton_state :=
  match n with
  | O => s
  | S n' => if loop_cond opt s then newton_loop opt n' (loop_body opt s) else s
  end.

Definition run_loop (opt : CSingleLaplaceNewtonOptimizer) (s : newton_state) : newton_state :=
  newton_loop opt (Z.to_nat (m_iter opt - iter s)) s.

(** Lines 169-191: the state in which the loop is entered. *)
Definition loop_entry (o : Obj) : newton_state :=
  let Psi_New := m_Psi o in
  let o := set_W o (get_log_probability_derivative_f (m_model o) (m_labels o) (m_mu o) 2) in
  let o := set_W o (SGVector_scale (m_W o) (-1)) in
  let o := set_dlp o (get_log_probability_derivative_f (m_model o) (m_labels o) (m_mu o) 1) in
  let o := set_sW o (SGVector_new (length (m_W o))) in
  {| Psi_Old := INFTY; Psi_New := Psi_New; iter := 0%Z; target := o |}.

(** [CSingleLaplaceNewtonOptimizer::minimize]; [m_obj] is the pointer set
    by [set_target], [None] when it is [NULL]. *)
Definition minimize (opt : CSingleLaplaceNewtonOptimizer) (m_obj : option Obj)
    : result minimize_outcome :=
  match m_obj with
  | None => Raise (SG_ERROR "Object not set")
  | Some o =>
      let s := run_loop opt (loop_entry o) in
      Ok {| returned_Psi := Psi_New s;
            target_after := target s;
            warned_max_iterations :=
              gap_exceeds (Psi_Old s) (Psi_New s) (m_tolerance opt)
              && (m_iter opt <=? iter s)%Z |}
  end.

(** *** The cost function of the first-order path *)

Definition get_psi_wrt_alpha (o : Obj) : float64_t :=
  let f := vadd (mulv (m_ktrtr o) (vmulr (m_alpha o) (exp_2_log_scale o))) (m_mean_f o) in
  let psi := dot (m_alpha o) (vsub f (m_mean_f o)) * 0.5 in
  psi - sum (get_log_probability_f (m_model o) (m_labels o) f).

(** The gradient is written into the vector passed in, which must have the
    length of [m_alpha]. *)
Definition get_gradient_wrt_alpha (o : Obj) (gradient : SGVector) : result SGVector :=
  bind (REQUIRE (Nat.eqb (length gradient) (length (m_alpha o)))
          "The length of gradients (%d) should the same as the length of parameters (%d)")
    (fun _ =>
       let f := vadd (mulv (m_ktrtr o) (vmulr (m_alpha o) (exp_2_log_scale o)))
                     (m_mean_f o) in
       let dlp_f := get_log_probability_derivative_f (m_model o) (m_labels o) f 1 in
       Ok (mulv (m_ktrtr o) (vmulr (vsub (m_alpha o) dlp_f) (exp_2_log_scale o)))).

Definition cost_function_init : SingleLaplaceInferenceMethodCostFunction :=
  {| m_derivatives := []; m_obj := None |}.

Definition set_target (cf : SingleLaplaceInferenceMethodCostFunction) (obj : Obj)
    : SingleLaplaceInferenceMethodCostFunction :=
  {| m_derivatives := m_derivatives cf; m_obj := Some obj |}.

Definition get_cost (cf : SingleLaplaceInferenceMethodCostFunction) : result float64_t :=
  match m_obj cf with
  | None => Raise (SG_ERROR "Object not set")
  | Some o => Ok (get_psi_wrt_alpha o)
  end.

Definition obtain_variable_reference (cf : SingleLaplaceInferenceMethodCostFunction)
    : result (SGVector * SingleLaplaceInferenceMethodCostFunction) :=
  match m_obj cf with
  | None => Raise (SG_ERROR "Object not set")
  | Some o =>
      Ok (m_alpha o,
          {| m_derivatives := SGVector_new (length (m_alpha o)); m_obj := m_obj cf |})
  end.

Definition get_gradient (cf : SingleLaplaceInferenceMethodCostFunction)
    : result (SGVector * SingleLaplaceInferenceMethodCostFunction) :=
  match m_obj cf with
  | None => Raise (SG_ERROR "Object not set")
  | Some o =>
      bind (get_gradient_wrt_alpha o (m_derivatives cf))
        (fun g => Ok (g, {| m_derivatives := g; m_obj := m_obj cf |}))
  end.

(** *** [CSingleLaplaceInferenceMethod] *)

Definition update_init (o : Obj) : Obj :=
  let o := set_mean_f o (get_mean_vector (m_mean o) (m_features o)) in
  let o := set_mu o (SGVector_new (length (m_mean_f o))) in
  if negb (Nat.eqb (length (m_alpha o)) (get_num_labels (m_labels o))) then
    let o := set_alpha o (SGVector_new (get_num_labels (m_labels o))) in
    let o := set_alpha o (Zero (length (m_alpha o))) in
    let o := set_mu o (m_mean_f o) in
    let Psi_New := - sum (get_log_probability_f (m_model o) (m_labels o) (m_mu o)) in
    set_Psi o Psi_New
  else
    let o := set_mu o (vadd (mulv (mmulr (m_ktrtr o) (exp_2_log_scale o)) (m_alpha o))
                            (m_mean_f o)) in
    let Psi_New :=
      dot (m_alpha o) (vsub (m_mu o) (m_mean_f o)) / 2
      - sum (get_log_probability_f (m_model o) (m_labels o) (m_mu o)) in
    let Psi_Def := - sum (get_log_probability_f (m_model o) (m_labels o) (m_mean_f o)) in
    if Rltb Psi_Def Psi_New then
      let o := set_alpha o (Zero (length (m_alpha o))) in
      let o := set_mu o (m_mean_f o) in
      set_Psi o Psi_Def
    else
      set_Psi o Psi_New.

(** The cost function as a first-order minimizer sees it: the variable is
    a reference to [m_alpha], so a cost or a gradient is evaluated on the
    object with the minimizer's current variable in place of [m_alpha]. *)
Definition cost_function_view (cf : SingleLaplaceInferenceMethodCostFunction) (o : Obj)
    : FirstOrderCostFunction :=
  {| fo_get_cost := fun a => get_cost (set_target cf (set_alpha o a));
     fo_get_gradient := fun a =>
       bind (obtain_variable_reference (set_target cf (set_alpha o a)))
         (fun r => bind (get_gradient (snd r)) (fun g => Ok (fst g)));
     fo_variable := m_alpha o |}.

(** Built with [USE_GPL_SHOGUN]. *)
Definition update_alpha : M unit :=
  (fun o =>
     match m_minimizer o with
     | Newton opt =>
         match minimize opt (Some o) with
         | Ok r => (Ok tt, target_after r)
         | Raise e => (Raise e, o)
         end
     | FirstOrder minimizer =>
         let cost_fun := set_target cost_function_init o in
         (Ok tt, set_alpha o (fo_minimize minimizer (cost_function_view cost_fun o)))
     | OtherMinimizer =>
         (Raise (SG_ERROR "The provided minimizer is not supported"), o)
     end) ;;;
  modify (fun o =>
    set_mu o (vadd (mulv (mmulr (m_ktrtr o) (exp_2_log_scale o)) (m_alpha o))
                   (m_mean_f o))).

Definition update_chol (o : Obj) : Obj :=
  let o := set_dlp o (get_log_probability_derivative_f (m_model o) (m_labels o) (m_mu o) 1) in
  let o := set_d2lp o (get_log_probability_derivative_f (m_model o) (m_labels o) (m_mu o) 2) in
  let o := set_d3lp o (get_log_probability_derivative_f (m_model o) (m_labels o) (m_mu o) 3) in
  let o := set_W o (m_d2lp o) in
  let o := set_W o (SGVector_scale (m_W o) (-1)) in
  let o := set_sW o (SGVector_new (length (m_W o))) in
  let o :=
    if Rgtb (minCoeff (m_W o)) 0 then
      set_sW o (cwiseSqrt (m_W o))
    else
      set_sW o (vsub (cwiseSqrt (vdivr (vadd (cwiseAbs (m_W o)) (m_W o)) 2))
                     (cwiseSqrt (vdivr (vsub (cwiseAbs (m_W o)) (m_W o)) 2))) in
  if Rltb (minCoeff (m_W o)) 0 then
    let lu :=
      madd (Identity (num_rows (m_ktrtr o)) (num_cols (m_ktrtr o)))
           (mul_asDiagonal (mmulr (m_ktrtr o) (exp_2_log_scale o)) (m_W o)) in
    let o := set_L o (mneg (lu_inverse lu)) in
    set_L o (asDiagonal_mul (m_W o) (m_L o))
  else
    let L :=
      madd (mcwiseProduct (outer (m_sW o) (m_sW o))
                          (mmulr (m_ktrtr o) (exp_2_log_scale o)))
           (Identity (num_rows (m_ktrtr o)) (num_cols (m_ktrtr o))) in
    set_L o (llt_matrixU L).

Definition update : M unit :=
  modify CInference_update ;;;
  modify update_init ;;;
  update_alpha ;;;
  modify update_chol ;;;
  modify (fun o => set_hash o false false).

Definition get_negative_log_marginal_likelihood : M float64_t :=
  (fun o => if parameter_hash_changed o then update o else ret tt o) ;;;
  gets (fun o =>
    let mean := get_mean_vector (m_mean o) (m_features o) in
    let lp := sum (get_log_probability_f (m_model o) (m_labels o) (m_mu o)) in
    if Rltb (minCoeff (m_W o)) 0 then
      let lu :=
        madd (Identity (num_rows (m_ktrtr o)) (num_cols (m_ktrtr o)))
             (mul_asDiagonal (mmulr (m_ktrtr o) (exp_2_log_scale o)) (m_sW o)) in
      dot (m_alpha o) (vsub (m_mu o) mean) / 2 - lp + ln (lu_determinant lu) / 2
    else
      dot (m_alpha o) (vsub (m_mu o) mean) / 2 - lp
      + sum (map ln (diagonal (m_L o)))).

Definition update_deriv (o : Obj) : Obj :=
  let o :=
    if Rltb (minCoeff (m_W o)) 0 then
      let o := set_Z o (mneg (m_L o)) in
      let lu :=
        madd (Identity (num_rows (m_ktrtr o)) (num_cols (m_ktrtr o)))
             (mul_asDiagonal (mmulr (m_ktrtr o) (exp_2_log_scale o)) (m_W o)) in
      let iA := lu_inverse lu in
      set_g o (vdivr (rowwise_sum
                        (mcwiseProduct iA (mmulr (m_ktrtr o) (exp_2_log_scale o)))) 2)
    else
      let o := set_Z o (upper_adjoint_solve (m_L o) (asDiagonal (m_sW o))) in
      let o := set_Z o (upper_solve (m_L o) (m_Z o)) in
      let o := set_Z o (asDiagonal_mul (m_sW o) (m_Z o)) in
      let C :=
        upper_adjoint_solve (m_L o)
          (mmulr (asDiagonal_mul (m_sW o) (m_ktrtr o)) (exp_2_log_scale o)) in
      set_g o (vdivr (vsub (vmulr (diagonal (m_ktrtr o)) (exp_2_log_scale o))
                           (colwise_sum (mcwiseProduct C C))) 2) in
  set_dfhat o (cwiseProduct (m_g o) (m_d3lp o)).

Definition get_derivative_wrt_inference_method (param : TParameter) : M SGVector :=
  require (String.eqb (m_name param) "log_scale")
    ("Can't compute derivative of the nagative log marginal likelihood wrt "
       ++ get_name ++ "." ++ m_name param ++ " parameter") ;;;
  gets (fun o =>
    let result0 :=
      msum (mcwiseProduct (m_Z o) (m_ktrtr o)) / 2
      - dot (vmul (m_alpha o) (m_ktrtr o)) (m_alpha o) / 2 in
    let b := mulv (m_ktrtr o) (m_dlp o) in
    let result0 :=
      result0
      - dot (m_dfhat o)
            (vsub b (mulv (mmulr (m_ktrtr o) (exp_2_log_scale o)) (mulv (m_Z o) b))) in
    let result0 := result0 * (exp_2_log_scale o * 2) in
    [result0]).

(** [param] is a pointer, [None] when it is [NULL]. *)
Definition get_derivative_wrt_mean (param : option TParameter) : M SGVector :=
  match param with
  | None => require false "Param not set" ;;; ret []
  | Some p =>
      gets (fun o =>
        let len := get_num_elements p in
        map (fun i =>
               let dmu :=
                 if Nat.eqb len 1
                 then get_parameter_derivative (m_mean o) (m_features o) p None
                 else get_parameter_derivative (m_mean o) (m_features o) p (Some i) in
               - dot (m_alpha o) dmu
               - dot (m_dfhat o)
                     (vsub dmu
                           (mulv (mmulr (m_ktrtr o) (exp_2_log_scale o))
                                 (mulv (m_Z o) dmu))))
            (seq 0 len))
  end.

(** ** The formulas of the specification

    Written from the specification's words, to be compared with what the
    methods above compute. *)

(** The amplitude scale; the multiplier on [K] is its square. *)
Definition scale (o : Obj) : float64_t := exp (m_log_scale o).

(** [K·scale²] *)
Definition K_scale2 (o : Obj) : SGMatrix := mmulr (m_ktrtr o) (scale o * scale o).

(** [f = K·scale²·alpha + mean] *)
Definition f_of_alpha (o : Obj) (alpha mean : SGVector) : SGVector :=
  vadd (mulv (K_scale2 o) alpha) mean.

(** The invariant of the mode state. *)
Definition consistent (o : Obj) : Prop :=
  m_mu o = f_of_alpha o (m_alpha o) (m_mean_f o).

(** [Psi = alpha·(f − mean)/2 − Σ log p(y|f)] *)
Definition Psi_of (o : Obj) (alpha f mean : SGVector) : float64_t :=
  dot alpha (vsub f mean) / 2 - sum (get_log_probability_f (m_model o) (m_labels o) f).

Definition Psi_of_alpha (o : Obj) (alpha mean : SGVector) : float64_t :=
  Psi_of o alpha (f_of_alpha o alpha mean) mean.

(** [K·scale²·(alpha − dlp(f))] *)
Definition gradient_of_alpha (o : Obj) (alpha mean : SGVector) : SGVector :=
  mulv (K_scale2 o)
       (vsub alpha
             (get_log_probability_derivative_f (m_model o) (m_labels o)
                (f_of_alpha o alpha mean) 1)).

(** [A = I + K·scale²·diag(W)] *)
Definition A_of (o : Obj) (W : SGVector) : SGMatrix :=
  madd (Identity (num_rows (m_ktrtr o)) (num_cols (m_ktrtr o)))
       (mul_asDiagonal (K_scale2 o) W).

(** [I + (sW·sWᵗ)⊙(K·scale²)] *)
Definition B_of (o : Obj) (sW : SGVector) : SGMatrix :=
  madd (Identity (num_rows (m_ktrtr o)) (num_cols (m_ktrtr o)))
       (mcwiseProduct (outer sW sW) (K_scale2 o)).

(** The negative log marginal likelihood of the indefinite branch:
    [alpha·(f − mean)/2 − Σ log p(y|f)] plus half the log of the
    determinant of [A]. *)
Definition nlml_indefinite (o : Obj) : float64_t :=
  Psi_of o (m_alpha o) (m_mu o) (get_mean_vector (m_mean o) (m_features o))
  + ln (lu_determinant (A_of o (m_W o))) / 2.

(** [W + (2/df)·dlp²], entry by entry *)
Definition regularized_W (df : float64_t) (W dlp : SGVector) : SGVector :=
  zipWith (fun w d => w + 2 / df * (d * d)) W dlp.

(** The derivative vector the mean function supplies for entry [i] of a
    parameter with several elements ([None] when it has exactly one). *)
Definition dmean_of (o : Obj) (p : TParameter) (i : nat) : SGVector :=
  if Nat.eqb (get_num_elements p) 1
  then get_parameter_derivative (m_mean o) (m_features o) p None
  else get_parameter_derivative (m_mean o) (m_features o) p (Some i).

(** [−alpha·dmean − dfhat·(dmean − K·scale²·(Z·dmean))] *)
Definition mean_gradient (o : Obj) (dmean : SGVector) : float64_t :=
  - dot (m_alpha o) dmean
  - dot (m_dfhat o) (vsub dmean (mulv (K_scale2 o) (mulv (m_Z o) dmean))).

(** The loop condition in the specification's words:
    [|Psi_old − Psi_new| > tolerance] and the iteration count below the cap. *)
Definition loop_cond_abs (opt : CSingleLaplaceNewtonOptimizer) (s : newton_state) : Prop :=
  match Psi_Old s with
  | INFTY => True
  | Finite p => Rabs (p - Psi_New s) > m_tolerance opt
  end /\ (iter s < m_iter opt)%Z.

(** The values [Psi_New] takes, from the state [s] on, while the loop runs. *)
Fixpoint psi_trace (opt : CSingleLaplaceNewtonOptimizer) (n : nat) (s : newton_state)
    : list float64_t :=
  Psi_New s ::
  match n with
  | O => []
  | S n' => if loop_cond opt s then psi_trace opt n' (loop_body opt s) else []
  end.

Definition psi_reached (opt : CSingleLaplaceNewtonOptimizer) (o : Obj) : list float64_t :=
  psi_trace opt (Z.to_nat (m_iter opt)) (loop_entry o).

(** ** A concrete problem

    One training point, unit kernel, zero mean, and the Student's t
    likelihood with one degree of freedom and unit scale (the Cauchy
    density [1 / (π (1 + (y − f)²))]).  With the label [y = 18/5] the
    posterior mode is [alpha = f = 3/5], where [W = −4/25]. *)

Definition cauchy_likelihood : CLikelihoodModel :=
  {| get_model_type := LT_STUDENTST;
     get_degrees_freedom := 1;
     get_log_probability_f := fun y f =>
       zipWith (fun yi fi => - ln PI - ln (1 + (yi - fi) * (yi - fi))) y f;
     get_log_probability_derivative_f := fun y f i =>
       zipWith (fun yi fi =>
                  let r := yi - fi in
                  let q := 1 + r * r in
                  if (i =? 1)%Z then 2 * r / q
                  else if (i =? 2)%Z then 2 * (r * r - 1) / (q * q)
                  else 4 * r * (r * r - 3) / (q * q * q)) y f |}.

Definition const_mean (c : float64_t) : CMeanFunction :=
  {| get_mean_vector := fun X => map (fun _ => c) X;
     get_parameter_derivative := fun X _ _ => map (fun _ => 1) X |}.

Definition mode_object : Obj :=
  {| m_features := [[0]];
     m_labels := [18 / 5];
     m_model := cauchy_likelihood;
     m_mean := const_mean 0;
     m_minimizer := Newton init;
     m_ktrtr := [[1]];
     m_log_scale := 0;
     parameter_hash_changed := false;
     m_gradient_update := false;
     m_alpha := [3 / 5];
     m_mu := [3 / 5];
     m_mean_f := [0];
     m_W := [- (4 / 25)];
     m_sW := [- (2 / 5)];
     m_dlp := [3 / 5];
     m_d2lp := [4 / 25];
     m_d3lp := [9 / 125];
     m_L := [[4 / 21]];
     m_Z := [[- (4 / 21)]];
     m_g := [25 / 42];
     m_dfhat := [3 / 70];
     m_Psi := 9 / 50 + ln PI + ln 10 |}.

(** Eigen's decompositions on 1×1 systems, and a line search that evaluates
    its objective once, at the midpoint of the interval. *)
Definition entry (M : SGMatrix) : float64_t := nth 0 (nth 0 M []) 0.
Definition scalar_llt_solve (B : SGMatrix) (y : SGVector) : SGVector := [nth 0 y 0 / entry B].
Definition scalar_llt_matrixU (B : SGMatrix) : SGMatrix := [[sqrt (entry B)]].
Definition scalar_lu_inverse (A : SGMatrix) : SGMatrix := [[1 / entry A]].
Definition scalar_upper_solve (L B : SGMatrix) : SGMatrix := [[entry B / entry L]].
Definition midpoint_min (a b t : float64_t) (f : float64_t -> float64_t) : brent_run :=
  {| brent_evals := [(a + b) / 2]; brent_x := (a + b) / 2; brent_fx := f ((a + b) / 2) |}.

(** [W = −d2lp], as [update_chol] computes it from the current [f]. *)
Definition W_of (o : Obj) : SGVector :=
  SGVector_scale (get_log_probability_derivative_f (m_model o) (m_labels o) (m_mu o) 2) (-1).

(** What [PsiLine::operator()] leaves untouched. *)
Definition same_frame (o o' : Obj) : Prop :=
  m_sW o' = m_sW o /\ m_ktrtr o' = m_ktrtr o /\ m_log_scale o' = m_log_scale o
  /\ m_mean_f o' = m_mean_f o /\ m_minimizer o' = m_minimizer o.

(** The loop condition as the code has it: the signed gap
    [Psi_Old − Psi_New] exceeds the tolerance and the iteration count is
    below the cap. *)
Definition loop_cond_signed (opt : CSingleLaplaceNewtonOptimizer) (s : newton_state) : Prop :=
  match Psi_Old s with
  | INFTY => True
  | Finite p => p - Psi_New s > m_tolerance opt
  end /\ (iter s < m_iter opt)%Z.

(** Further inputs: a loop state in which [Psi] has just gone up, the
    object before [alpha] has been allocated, the object moved to where the
    likelihood is log-concave, and two parameters. *)
Definition stalled_state : newton_state :=
  {| Psi_Old := Finite 0; Psi_New := 1; iter := 1; target := mode_object |}.

Definition cold_object : Obj := set_alpha mode_object [].

Definition concave_object : Obj := set_mu mode_object [18 / 5].

Definition log_scale_parameter : TParameter :=
  {| m_name := "log_scale"; get_num_elements := 1 |}.

Definition mean_parameter : TParameter :=
  {| m_name := "mean"; get_num_elements := 1 |}.

(** ** Further methods of the file *)

(** More of Eigen: [M.adjoint()] of a real matrix, the matrix product and
    the difference of two matrices. *)
Definition transpose (A : SGMatrix) : SGMatrix :=
  map (fun j => map (fun r => nth j r 0) A) (seq 0 (num_cols A)).

Definition mmul (A B : SGMatrix) : SGMatrix :=
  map (fun r => map (fun c => dot r c) (transpose B)) A.

Definition msub (A B : SGMatrix) : SGMatrix := zipWith vsub A B.

(** [m_kernel->get_parameter_gradient(param)] and
    [m_kernel->get_parameter_gradient(param, i)] of the kernel the object
    holds; [None] is the overload without an index. *)
Variable kernel_parameter_gradient : Obj -> TParameter -> option nat -> SGMatrix.

(** [CInference::compute_gradient()] and [CInference::register_minimizer()]
    of the base class. *)
Variable compute_gradient : M unit.
Variable CInference_register_minimizer : Minimizer -> Obj -> Obj.

Definition get_diagonal_vector : M SGVector :=
  (fun o => if parameter_hash_changed o then update o else ret tt o) ;;;
  gets m_sW.

(** [update_approx_cov]: the matrix it stores in [m_Sigma]. *)
Definition update_approx_cov (o : Obj) : SGMatrix :=
  let V :=
    upper_adjoint_solve (m_L o)
      (mmulr (asDiagonal_mul (m_sW o) (m_ktrtr o)) (exp_2_log_scale o)) in
  msub (mmulr (m_ktrtr o) (exp_2_log_scale o)) (mmul (transpose V) V).



Definition get_derivative_wrt_kernel (param : option TParameter) : M SGVector :=
  match param with
  | None => require false "Param not set" ;;; ret []
  | Some p =>
      gets (fun o =>
        let len := get_num_elements p in
        map (fun i =>
               let dK :=
                 if Nat.eqb len 1
                 then kernel_parameter_gradient o p None
                 else kernel_parameter_gradient o p (Some i) in
               let result_i :=
                 msum (mcwiseProduct (m_Z o) dK) / 2
                 - dot (vmul (m_alpha o) dK) (m_alpha o) / 2 in
               let b := mulv dK (m_dlp o) in
               let result_i :=
                 result_i
                 - dot (m_dfhat o)
                       (vsub b (mulv (mmulr (m_ktrtr o) (exp_2_log_scale o))
                                     (mulv (m_Z o) b))) in
               result_i * exp_2_log_scale o)
            (seq 0 len))
  end.

Definition get_posterior_mean : M SGVector :=
  compute_gradient ;;;
  gets (fun o => vsub (m_mu o) (get_mean_vector (m_mean o) (m_features o))).

(** ** Notions used to state what the methods keep *)

(** Entry [(i, j)] of a matrix. *)
Definition entry_at (A : SGMatrix) (i j : nat) : float64_t := nth j (nth i A []) 0.

Definition square (A : SGMatrix) : Prop :=
  Forall (fun r => length r = num_rows A) A.

Definition symmetric (A : SGMatrix) : Prop :=
  forall i j, entry_at A i j = entry_at A j i.

(** The fields the Newton optimizer and its line search never write. *)
Definition outside_newton (o : Obj) :=
  (m_Psi o, m_L o, m_ktrtr o, m_log_scale o, m_mean_f o, m_model o, m_labels o,
   m_mean o, m_features o, m_minimizer o, parameter_hash_changed o,
   m_gradient_update o, m_d2lp o, m_d3lp o, m_Z o, m_g o, m_dfhat o).

(** The fields [update_chol] never writes. *)
Definition outside_chol (o : Obj) :=
  (m_Psi o, m_alpha o, m_mu o, m_ktrtr o, m_log_scale o, m_mean_f o, m_model o,
   m_labels o, m_mean o, m_features o, m_minimizer o, parameter_hash_changed o,
   m_gradient_update o, m_Z o, m_g o, m_dfhat o).

(** The abscissa of the last evaluation of a line search, if any. *)
Definition last_evaluation (run : brent_run) : option float64_t :=
  match rev (brent_evals run) with
  | [] => None
  | x :: _ => Some x
  end.

(** The [PsiLine] that [minimize] builds for the direction [d]. *)
Definition PsiLine_of (o : Obj) (d : SGVector) : PsiLine :=
  {| log_scale := m_log_scale o; K := m_ktrtr o; dalpha := d;
     start_alpha := m_alpha o; lik := m_model o; lab := m_labels o |}.

(** Instances of the further library routines for the concrete problem. *)
Definition unit_kernel_gradient (o : Obj) (p : TParameter) (i : option nat) : SGMatrix :=
  m_ktrtr o.

(** A Newton optimizer whose iteration cap has been set to zero. *)
Definition no_iteration_optimizer : CSingleLaplaceNewtonOptimizer :=
  {| m_iter := 0; m_tolerance := 1e-6; m_opt_tolerance := 1e-6; m_opt_max := 10 |}.


(** ** Linear algebra on lists *)

Lemma sum_vmulr (v : SGVector) (c : R) : sum (vmulr v c) = sum v * c.
Proof.
  unfold sum, vmulr. induction v as [|x v IH]; simpl.
  - lra.
  - rewrite IH. lra.
Qed.

Lemma cwiseProduct_vmulr_l (r v : SGVector) (c : R) :
  cwiseProduct (vmulr r c) v = vmulr (cwiseProduct r v) c.
Proof.
  revert v. induction r as [|x r IH]; intros [|y v]; simpl; trivial.
  unfold cwiseProduct, vmulr in *. simpl. rewrite IH. f_equal. lra.
Qed.

Lemma cwiseProduct_vmulr_r (r v : SGVector) (c : R) :
  cwiseProduct r (vmulr v c) = vmulr (cwiseProduct r v) c.
Proof.
  revert v. induction r as [|x r IH]; intros [|y v]; simpl; trivial.
  unfold cwiseProduct, vmulr in *. simpl. rewrite IH. f_equal. lra.
Qed.

Lemma dot_vmulr_l (r v : SGVector) (c : R) : dot (vmulr r c) v = dot r v * c.
Proof. unfold dot. now rewrite cwiseProduct_vmulr_l, sum_vmulr. Qed.

Lemma dot_vmulr_r (r v : SGVector) (c : R) : dot r (vmulr v c) = dot r v * c.
Proof. unfold dot. now rewrite cwiseProduct_vmulr_r, sum_vmulr. Qed.

Lemma mulv_mmulr (A : SGMatrix) (v : SGVector) (c : R) :
  mulv (mmulr A c) v = vmulr (mulv A v) c.
Proof.
  unfold mulv, mmulr, vmulr at 2. rewrite !map_map.
  apply map_ext. intro r. apply dot_vmulr_l.
Qed.

Lemma mulv_vmulr (A : SGMatrix) (v : SGVector) (c : R) :
  mulv A (vmulr v c) = vmulr (mulv A v) c.
Proof.
  unfold mulv, vmulr at 2. rewrite map_map.
  apply map_ext. intro r. apply dot_vmulr_r.
Qed.

Lemma dot_Zero_l (n : nat) (v : SGVector) : dot (Zero n) v = 0.
Proof.
  revert v. induction n as [|n IH]; intros [|y v]; simpl; trivial.
  unfold dot, cwiseProduct, sum in *. simpl. specialize (IH v). unfold Zero in IH.
  rewrite IH. lra.
Qed.

Lemma dot_Zero_r (r : SGVector) (n : nat) : dot r (Zero n) = 0.
Proof.
  revert n. induction r as [|x r IH]; intros [|n]; simpl; trivial.
  unfold dot, cwiseProduct, sum in *. simpl. specialize (IH n). unfold Zero in IH.
  rewrite IH. lra.
Qed.

Lemma mulv_Zero (A : SGMatrix) (n : nat) : mulv A (Zero n) = Zero (num_rows A).
Proof.
  unfold mulv, num_rows, Zero. induction A as [|r A IH]; simpl; trivial.
  rewrite IH. f_equal. apply (dot_Zero_r r n).
Qed.

Lemma length_mmulr (A : SGMatrix) (c : R) : num_rows (mmulr A c) = num_rows A.
Proof. unfold num_rows, mmulr. apply length_map. Qed.

Lemma vadd_Zero_l (n : nat) (v : SGVector) :
  (length v <= n)%nat -> vadd (Zero n) v = v.
Proof.
  revert v. induction n as [|n IH]; intros [|y v] H; simpl in *; trivial.
  - lia.
  - unfold vadd, Zero in *. simpl. rewrite IH by lia. f_equal. lra.
Qed.

Lemma scale2_exp (o : Obj) : exp_2_log_scale o = scale o * scale o.
Proof.
  unfold exp_2_log_scale, scale. rewrite <- exp_plus. f_equal. lra.
Qed.

(** ** [minCoeff] *)

Lemma fold_left_Rmin_le (l : list R) (x : R) :
  fold_left Rmin l x <= x /\ Forall (fun y => fold_left Rmin l x <= y) l.
Proof.
  revert x. induction l as [|y l IH]; intro x; simpl.
  - split; [lra | constructor].
  - destruct (IH (Rmin x y)) as [H1 H2]. split.
    + pose proof (Rmin_l x y). lra.
    + constructor; trivial. pose proof (Rmin_r x y). lra.
Qed.

Lemma minCoeff_le (v : SGVector) : Forall (fun y => minCoeff v <= y) v.
Proof.
  destruct v as [|x v]; simpl; [constructor|].
  destruct (fold_left_Rmin_le v x) as [H1 H2]. now constructor.
Qed.

Lemma minCoeff_nonneg (v : SGVector) : 0 <= minCoeff v -> Forall (fun y => 0 <= y) v.
Proof.
  intro H. eapply Forall_impl; [|apply minCoeff_le]. simpl. intros; lra.
Qed.

Lemma Rltb_true (a b : R) : Rltb a b = true <-> a < b.
Proof. unfold Rltb. destruct (Rlt_dec a b); split; intros; trivial; discriminate || contradiction. Qed.

Lemma Rltb_false (a b : R) : Rltb a b = false <-> b <= a.
Proof.
  unfold Rltb. destruct (Rlt_dec a b); split; intros; trivial; try discriminate; lra.
Qed.

(** ** The signed square root of [update_chol] *)

Lemma signed_sqrt_nonneg (w : R) :
  0 <= w -> sqrt ((Rabs w + w) / 2) - sqrt ((Rabs w - w) / 2) = sqrt w.
Proof.
  intro H. rewrite (Rabs_pos_eq w H).
  replace ((w + w) / 2) with w by lra.
  replace ((w - w) / 2) with 0 by lra.
  rewrite sqrt_0. lra.
Qed.

Lemma signed_sqrt_list (W : SGVector) :
  vsub (cwiseSqrt (vdivr (vadd (cwiseAbs W) W) 2))
       (cwiseSqrt (vdivr (vsub (cwiseAbs W) W) 2))
  = map (fun w => sqrt ((Rabs w + w) / 2) - sqrt ((Rabs w - w) / 2)) W.
Proof.
  induction W as [|w W IH]; simpl; trivial.
  unfold vsub, cwiseSqrt, vdivr, vadd, cwiseAbs in *. simpl. now rewrite IH.
Qed.

(** ** What the code computes for [f], in the specification's terms *)

Lemma code_f_left (o : Obj) (alpha mean : SGVector) :
  vadd (mulv (mmulr (m_ktrtr o) (exp_2_log_scale o)) alpha) mean = f_of_alpha o alpha mean.
Proof. unfold f_of_alpha, K_scale2. now rewrite scale2_exp. Qed.

Lemma code_f_middle (o : Obj) (alpha mean : SGVector) :
  vadd (vmulr (mulv (m_ktrtr o) alpha) (exp_2_log_scale o)) mean = f_of_alpha o alpha mean.
Proof. rewrite <- mulv_mmulr. apply code_f_left. Qed.

Lemma code_f_right (o : Obj) (alpha mean : SGVector) :
  vadd (mulv (m_ktrtr o) (vmulr alpha (exp_2_log_scale o))) mean = f_of_alpha o alpha mean.
Proof. rewrite mulv_vmulr. apply code_f_middle. Qed.

Lemma f_of_alpha_Zero (o : Obj) (n : nat) (mean : SGVector) :
  num_rows (m_ktrtr o) = length mean -> f_of_alpha o (Zero n) mean = mean.
Proof.
  intro H. unfold f_of_alpha. rewrite mulv_Zero. apply vadd_Zero_l.
  unfold K_scale2. rewrite length_mmulr. lia.
Qed.

(** ** [update_init] *)

Lemma update_init_cold (o : Obj) :
  length (m_alpha o) <> get_num_labels (m_labels o) ->
  let mean := get_mean_vector (m_mean o) (m_features o) in
  let o' := update_init o in
  m_alpha o' = Zero (get_num_labels (m_labels o))
  /\ m_mu o' = mean
  /\ m_mean_f o' = mean
  /\ m_Psi o' = - sum (get_log_probability_f (m_model o) (m_labels o) mean).
Proof.
  intros H mean o'. subst o'. unfold update_init. simpl.
  apply Nat.eqb_neq in H. rewrite H. simpl.
  unfold SGVector_new, Zero. rewrite repeat_length. auto.
Qed.

Lemma update_init_warm (o : Obj) :
  length (m_alpha o) = get_num_labels (m_labels o) ->
  let mean := get_mean_vector (m_mean o) (m_features o) in
  let f := f_of_alpha o (m_alpha o) mean in
  let Psi_warm := Psi_of o (m_alpha o) f mean in
  let Psi_Def := - sum (get_log_probability_f (m_model o) (m_labels o) mean) in
  let o' := update_init o in
  m_mean_f o' = mean
  /\ (Psi_Def < Psi_warm ->
      m_alpha o' = Zero (length (m_alpha o)) /\ m_mu o' = mean /\ m_Psi o' = Psi_Def)
  /\ (Psi_warm <= Psi_Def ->
      m_alpha o' = m_alpha o /\ m_mu o' = f /\ m_Psi o' = Psi_warm).
Proof.
  intros H mean f Psi_warm Psi_Def o'. subst o'. unfold update_init. simpl.
  apply Nat.eqb_eq in H. rewrite H. simpl.
  change (exp_2_log_scale _) with (exp_2_log_scale o).
  rewrite code_f_left. fold mean. fold f. fold (Psi_of o (m_alpha o) f mean).
  fold Psi_warm. fold Psi_Def.
  destruct (Rltb Psi_Def Psi_warm) eqn:E; simpl.
  - apply Rltb_true in E. repeat split; intros; trivial; lra.
  - apply Rltb_false in E. repeat split; intros; trivial; lra.
Qed.

(** C7.  When [update_init] leaves [alpha] equal to the zero vector, it
    leaves [f] equal to the prior mean vector and [Psi] equal to
    [−Σ log p(y | mean)].  A length of [alpha] different from the number of
    labels forces that case; otherwise [alpha] is zero after a reset or
    because it was zero before, where the kernel matrix is taken to have one
    row per entry of the mean vector. *)
Theorem C7_update_init_zero_alpha (o : Obj) :
  let mean := get_mean_vector (m_mean o) (m_features o) in
  let Psi_Def := - sum (get_log_probability_f (m_model o) (m_labels o) mean) in
  let o' := update_init o in
  (length (m_alpha o) <> get_num_labels (m_labels o) ->
   m_alpha o' = Zero (get_num_labels (m_labels o))
   /\ m_mu o' = mean /\ m_Psi o' = Psi_Def)
  /\ (num_rows (m_ktrtr o) = length mean ->
      m_alpha o' = Zero (length (m_alpha o')) ->
      m_mu o' = mean /\ m_Psi o' = Psi_Def).
Proof.
  intros mean Psi_Def o'. split.
  - intro Hne. destruct (update_init_cold o Hne) as (Ha & Hmu & _ & HPsi). auto.
  - intros Hsize.
    destruct (Nat.eq_dec (length (m_alpha o)) (get_num_labels (m_labels o))) as [Heq | Hne].
    + destruct (update_init_warm o Heq) as (_ & Hreset & Hkeep).
      fold mean in Hreset, Hkeep. fold o' in Hreset, Hkeep. fold Psi_Def in Hreset, Hkeep.
      set (Psi_warm := Psi_of o (m_alpha o) (f_of_alpha o (m_alpha o) mean) mean) in *.
      destruct (Rlt_dec Psi_Def Psi_warm) as [Hlt | Hge].
      * destruct (Hreset Hlt) as (_ & Hmu & HPsi). intros _. now split.
      * assert (Hle : Psi_warm <= Psi_Def) by lra.
        destruct (Hkeep Hle) as (Ha & Hmu & HPsi). intro Hzero.
        rewrite Ha in Hzero.
        assert (Hf : f_of_alpha o (m_alpha o) mean = mean).
        { rewrite Hzero. now apply f_of_alpha_Zero. }
        split; [congruence|].
        rewrite HPsi. unfold Psi_warm, Psi_of. rewrite Hf.
        rewrite Hzero at 1. rewrite dot_Zero_l. unfold Psi_Def. lra.
    + destruct (update_init_cold o Hne) as (Ha & Hmu & _ & HPsi). intros _. now split.
Qed.

(** C10.  On a warm start (the length of [alpha] is the number of labels)
    [update_init] compares [Psi(alpha)] with the zero-alpha objective
    [Psi_Def = −Σ log p(y | mean)]; when [Psi_Def < Psi(alpha)] it resets
    [alpha] to zero and [f] to the prior mean, otherwise it keeps [alpha];
    in both cases [m_Psi] is the smaller of the two values. *)
Theorem C10_update_init_warm_start (o : Obj) :
  let mean := get_mean_vector (m_mean o) (m_features o) in
  let Psi_warm := Psi_of_alpha o (m_alpha o) mean in
  let Psi_Def := - sum (get_log_probability_f (m_model o) (m_labels o) mean) in
  let o' := update_init o in
  length (m_alpha o) = get_num_labels (m_labels o) ->
  m_Psi o' = Rmin Psi_warm Psi_Def
  /\ (Psi_Def < Psi_warm -> m_alpha o' = Zero (length (m_alpha o)) /\ m_mu o' = mean)
  /\ (Psi_warm <= Psi_Def ->
      m_alpha o' = m_alpha o /\ m_mu o' = f_of_alpha o (m_alpha o) mean).
Proof.
  intros mean Psi_warm Psi_Def o' Hlen.
  destruct (update_init_warm o Hlen) as (_ & Hreset & Hkeep).
  fold mean in Hreset, Hkeep. fold o' in Hreset, Hkeep.
  fold (Psi_of_alpha o (m_alpha o) mean) in Hreset, Hkeep.
  fold Psi_warm in Hreset, Hkeep. fold Psi_Def in Hreset, Hkeep.
  split; [|split].
  - destruct (Rlt_dec Psi_Def Psi_warm) as [Hlt | Hge].
    + destruct (Hreset Hlt) as (_ & _ & ->). rewrite Rmin_right; lra.
    + assert (Hle : Psi_warm <= Psi_Def) by lra.
      destruct (Hkeep Hle) as (_ & _ & ->). rewrite Rmin_left; lra.
  - intro Hlt. destruct (Hreset Hlt) as (? & ? & _). now split.
  - intro Hle. destruct (Hkeep Hle) as (? & ? & _). now split.
Qed.

(** ** The cost function of the first-order path *)

Lemma get_psi_wrt_alpha_spec (o : Obj) :
  get_psi_wrt_alpha o = Psi_of_alpha o (m_alpha o) (m_mean_f o).
Proof.
  unfold get_psi_wrt_alpha, Psi_of_alpha, Psi_of. rewrite code_f_right.
  generalize (dot (m_alpha o) (vsub (f_of_alpha o (m_alpha o) (m_mean_f o)) (m_mean_f o))).
  intro d. lra.
Qed.

Lemma get_gradient_wrt_alpha_spec (o : Obj) (gradient : SGVector) :
  length gradient = length (m_alpha o) ->
  get_gradient_wrt_alpha o gradient = Ok (gradient_of_alpha o (m_alpha o) (m_mean_f o)).
Proof.
  intro H. unfold get_gradient_wrt_alpha. apply Nat.eqb_eq in H. rewrite H. simpl.
  rewrite code_f_right, mulv_vmulr, <- mulv_mmulr, scale2_exp. reflexivity.
Qed.

Lemma get_gradient_wrt_alpha_length (o : Obj) (gradient : SGVector) :
  length gradient <> length (m_alpha o) ->
  exists e, get_gradient_wrt_alpha o gradient = Raise e.
Proof.
  intro H. unfold get_gradient_wrt_alpha. apply Nat.eqb_neq in H. rewrite H. simpl.
  eexists. reflexivity.
Qed.

(** C8.  With [alpha] as the variable of the cost function, [get_cost]
    returns [Psi = alpha·(f − mean)/2 − Σ log p(y|f)] and [get_gradient]
    (once the variable reference has been obtained) returns
    [K·scale²·(alpha − dlp(f))], both with [f = K·scale²·alpha + mean]. *)
Theorem C8_cost_function_adapter
    (cf : SingleLaplaceInferenceMethodCostFunction) (o : Obj) (alpha : SGVector) :
  let target := set_alpha o alpha in
  get_cost (set_target cf target) = Ok (Psi_of_alpha o alpha (m_mean_f o))
  /\ exists cf',
      obtain_variable_reference (set_target cf target) = Ok (alpha, cf')
      /\ get_gradient cf'
         = Ok (gradient_of_alpha o alpha (m_mean_f o),
               {| m_derivatives := gradient_of_alpha o alpha (m_mean_f o);
                  m_obj := Some target |}).
Proof.
  intro target. split.
  - unfold get_cost. simpl. now rewrite get_psi_wrt_alpha_spec.
  - eexists. split; [reflexivity|].
    unfold get_gradient. simpl.
    rewrite get_gradient_wrt_alpha_spec.
    + reflexivity.
    + unfold SGVector_new, Zero. apply repeat_length.
Qed.

(** ** Derivatives *)

(** C9.  For a parameter whose name is not ["log_scale"],
    [get_derivative_wrt_inference_method] raises an exception and leaves the
    object as it was; for the name ["log_scale"] it returns a vector and
    also leaves the object as it was. *)
Theorem C9_derivative_wrt_inference_method (o : Obj) (param : TParameter) :
  (m_name param <> "log_scale"%string ->
   exists e, get_derivative_wrt_inference_method param o = (Raise e, o))
  /\ (m_name param = "log_scale"%string ->
      exists g, get_derivative_wrt_inference_method param o = (Ok [g], o)).
Proof.
  unfold get_derivative_wrt_inference_method, bindM, require, gets, REQUIRE. split; intro H.
  - apply String.eqb_neq in H. rewrite H. eexists. reflexivity.
  - apply String.eqb_eq in H. rewrite H. eexists. reflexivity.
Qed.

Lemma nth_map_seq (F : nat -> R) (len i : nat) :
  (i < len)%nat -> nth i (map F (seq 0 len)) 0 = F i.
Proof.
  intro H. rewrite (nth_indep _ 0 (F O)) by (rewrite length_map, length_seq; exact H).
  rewrite map_nth, seq_nth by exact H. reflexivity.
Qed.

Lemma get_derivative_wrt_mean_spec (o : Obj) (p : TParameter) :
  exists g,
    get_derivative_wrt_mean (Some p) o = (Ok g, o)
    /\ length g = get_num_elements p
    /\ forall i, (i < get_num_elements p)%nat -> nth i g 0 = mean_gradient o (dmean_of o p i).
Proof.
  unfold get_derivative_wrt_mean, gets. eexists. split; [reflexivity|]. split.
  - now rewrite length_map, length_seq.
  - intros i Hi. rewrite nth_map_seq by exact Hi.
    unfold mean_gradient, dmean_of, K_scale2. now rewrite scale2_exp.
Qed.

Lemma update_deriv_dfhat (o : Obj) :
  m_dfhat (update_deriv o) = cwiseProduct (m_g (update_deriv o)) (m_d3lp (update_deriv o))
  /\ m_d3lp (update_deriv o) = m_d3lp o
  /\ m_alpha (update_deriv o) = m_alpha o.
Proof.
  unfold update_deriv. destruct (Rltb (minCoeff (m_W o)) 0); simpl; auto.
Qed.

(** C6.  After [update_deriv] has cached [dfhat = g ⊙ d3lp], the gradient
    returned by [get_derivative_wrt_mean] for a parameter with derivative
    vector [dmean] is [−alpha·dmean − dfhat·(dmean − K·scale²·(Z·dmean))],
    one entry per element of the parameter; the call leaves the object as
    it was. *)
Theorem C6_derivative_wrt_mean (o : Obj) (p : TParameter) (i : nat) :
  (i < get_num_elements p)%nat ->
  let o' := update_deriv o in
  m_dfhat o' = cwiseProduct (m_g o') (m_d3lp o)
  /\ exists g,
      get_derivative_wrt_mean (Some p) o' = (Ok g, o')
      /\ length g = get_num_elements p
      /\ nth i g 0 = mean_gradient o' (dmean_of o' p i).
Proof.
  intros Hi o'. split.
  - destruct (update_deriv_dfhat o) as (H1 & H2 & _). fold o' in H1, H2. congruence.
  - destruct (get_derivative_wrt_mean_spec o' p) as (g & Hg & Hlen & Hnth).
    exists g. auto.
Qed.

(** ** [update_chol] *)

Lemma vadd_comm (u v : SGVector) : vadd u v = vadd v u.
Proof.
  revert v. induction u as [|x u IH]; intros [|y v]; simpl; trivial.
  unfold vadd in *. simpl. rewrite IH. f_equal. lra.
Qed.

Lemma madd_comm (A B : SGMatrix) : madd A B = madd B A.
Proof.
  revert B. induction A as [|r A IH]; intros [|r' B]; simpl; trivial.
  unfold madd in *. simpl. rewrite IH. f_equal. apply vadd_comm.
Qed.

Lemma Rgtb_false_of_not_lt (a : R) : Rgtb a 0 = false -> Rltb a 0 = false -> a = 0.
Proof.
  unfold Rgtb. intros H1 H2. apply Rltb_false in H1. apply Rltb_false in H2. lra.
Qed.

Lemma update_chol_W (o : Obj) :
  m_W (update_chol o) = W_of o
  /\ m_alpha (update_chol o) = m_alpha o
  /\ m_mu (update_chol o) = m_mu o.
Proof.
  unfold update_chol. simpl. fold (W_of o).
  destruct (Rgtb (minCoeff (W_of o)) 0); simpl;
    destruct (Rltb (minCoeff (W_of o)) 0); simpl; auto.
Qed.

Lemma update_chol_psd (o : Obj) :
  0 <= minCoeff (W_of o) ->
  m_sW (update_chol o) = cwiseSqrt (W_of o)
  /\ m_L (update_chol o) = llt_matrixU (B_of o (cwiseSqrt (W_of o))).
Proof.
  intro H. unfold update_chol. simpl. fold (W_of o).
  assert (Hlt : Rltb (minCoeff (W_of o)) 0 = false) by now apply Rltb_false.
  assert (HsW :
    vsub (cwiseSqrt (vdivr (vadd (cwiseAbs (W_of o)) (W_of o)) 2))
         (cwiseSqrt (vdivr (vsub (cwiseAbs (W_of o)) (W_of o)) 2))
    = cwiseSqrt (W_of o)).
  { rewrite signed_sqrt_list. unfold cwiseSqrt. apply map_ext_Forall.
    eapply Forall_impl; [|apply (minCoeff_nonneg _ H)].
    intros w Hw. now apply signed_sqrt_nonneg. }
  destruct (Rgtb (minCoeff (W_of o)) 0); simpl; rewrite Hlt; simpl.
  - split; trivial. unfold B_of, K_scale2. now rewrite madd_comm, scale2_exp.
  - rewrite HsW. split; trivial. unfold B_of, K_scale2. now rewrite madd_comm, scale2_exp.
Qed.

Lemma update_chol_indefinite (o : Obj) :
  minCoeff (W_of o) < 0 ->
  m_sW (update_chol o)
  = map (fun w => sqrt ((Rabs w + w) / 2) - sqrt ((Rabs w - w) / 2)) (W_of o)
  /\ m_L (update_chol o) = asDiagonal_mul (W_of o) (mneg (lu_inverse (A_of o (W_of o)))).
Proof.
  intro H. unfold update_chol. simpl. fold (W_of o).
  assert (Hlt : Rltb (minCoeff (W_of o)) 0 = true) by now apply Rltb_true.
  assert (Hgt : Rgtb (minCoeff (W_of o)) 0 = false) by (apply Rltb_false; lra).
  rewrite Hgt. simpl. rewrite Hlt. simpl. rewrite signed_sqrt_list.
  split; trivial. unfold A_of, K_scale2. now rewrite scale2_exp.
Qed.

(** C3.  When the least entry of [W = −d2lp] is not negative (zero
    included), [update_chol] sets [sW] to the entry-wise square root of [W]
    and [L] to the upper Cholesky factor of [I + (sW·sWᵗ)⊙(K·scale²)]. *)
Theorem C3_update_chol_psd_branch (o : Obj) :
  let o' := update_chol o in
  0 <= minCoeff (m_W o') ->
  m_W o' = W_of o
  /\ m_sW o' = cwiseSqrt (m_W o')
  /\ m_L o' = llt_matrixU (B_of o (m_sW o')).
Proof.
  intros o' H. destruct (update_chol_W o) as (HW & _). fold o' in HW.
  rewrite HW in H |- *. destruct (update_chol_psd o H) as (HsW & HL).
  fold o' in HsW, HL. rewrite HsW. auto.
Qed.

(** ** The Newton iteration *)

Lemma regularized_W_code (df : R) (W dlp : SGVector) :
  vadd W (vmull (2 / df) (cwiseProduct dlp dlp)) = regularized_W df W dlp.
Proof.
  unfold vadd, vmull, cwiseProduct, regularized_W.
  revert dlp. induction W as [|w W IH]; intros [|d dlp]; simpl; trivial.
  now rewrite IH.
Qed.

Lemma PsiLine_call_consistent (o : Obj) (d a : SGVector) (l : CLikelihoodModel)
    (y : CLabels) (x : R) :
  consistent
    (snd (PsiLine_call
            {| log_scale := m_log_scale o; K := m_ktrtr o; dalpha := d;
               start_alpha := a; lik := l; lab := y |} x o)).
Proof.
  unfold consistent. simpl.
  exact (code_f_middle o (vadd a (vmull x d)) (m_mean_f o)).
Qed.

Lemma same_frame_refl (o : Obj) : same_frame o o.
Proof. repeat split. Qed.

Lemma same_frame_trans (o1 o2 o3 : Obj) :
  same_frame o1 o2 -> same_frame o2 o3 -> same_frame o1 o3.
Proof.
  unfold same_frame. intros (A1 & A2 & A3 & A4 & A5) (B1 & B2 & B3 & B4 & B5).
  repeat split; congruence.
Qed.

Lemma PsiLine_call_frame (func : PsiLine) (x : R) (o : Obj) :
  same_frame o (snd (PsiLine_call func x o)).
Proof. repeat split. Qed.

Lemma PsiLine_fold_frame (func : PsiLine) (xs : list R) (o : Obj) :
  same_frame o (fold_left (fun o' x => snd (PsiLine_call func x o')) xs o).
Proof.
  revert o. induction xs as [|x xs IH]; intro o; simpl.
  - apply same_frame_refl.
  - eapply same_frame_trans; [apply (PsiLine_call_frame func x o) | apply IH].
Qed.

Lemma line_search_frame (opt : CSingleLaplaceNewtonOptimizer) (d : SGVector) (o : Obj) :
  same_frame o (snd (line_search opt d o)).
Proof. unfold line_search. exact (PsiLine_fold_frame _ _ o). Qed.

Lemma PsiLine_fold_consistent (o0 : Obj) (d a : SGVector) (l : CLikelihoodModel)
    (y : CLabels) (xs : list R) (o : Obj) :
  m_ktrtr o = m_ktrtr o0 -> m_log_scale o = m_log_scale o0 ->
  consistent o ->
  consistent
    (fold_left
       (fun o' x =>
          snd (PsiLine_call
                 {| log_scale := m_log_scale o0; K := m_ktrtr o0; dalpha := d;
                    start_alpha := a; lik := l; lab := y |} x o')) xs o).
Proof.
  revert o. induction xs as [|x xs IH]; intros o HK Hs Hc; simpl; trivial.
  apply IH; simpl; trivial.
  rewrite <- HK, <- Hs. apply PsiLine_call_consistent.
Qed.

Lemma line_search_consistent (opt : CSingleLaplaceNewtonOptimizer) (d : SGVector) (o : Obj) :
  consistent o -> consistent (snd (line_search opt d o)).
Proof.
  intro H. unfold line_search.
  exact (PsiLine_fold_consistent o d (m_alpha o) (m_model o) (m_labels o) _ o eq_refl eq_refl H).
Qed.

(** C4.  In an iteration that starts with a negative entry in [W], the
    optimizer replaces [W] by [W + (2/df)·dlp²] entry by entry, with [df]
    the degrees of freedom of the likelihood when it is Student's t and
    [df = 1] otherwise; the [sW] of the iteration is the entry-wise square
    root of that [W]. *)
Theorem C4_newton_regularization (opt : CSingleLaplaceNewtonOptimizer) (s : newton_state) :
  let o := target s in
  let df :=
    match get_model_type (m_model o) with
    | LT_STUDENTST => get_degrees_freedom (m_model o)
    | _ => 1
    end in
  let W' := regularized_W df (m_W o) (m_dlp o) in
  minCoeff (m_W o) < 0 ->
  m_W (regularize_W o) = W'
  /\ m_sW (compute_sW (regularize_W o)) = cwiseSqrt W'
  /\ m_sW (target (loop_body opt s)) = cwiseSqrt W'.
Proof.
  intros o df W' H.
  assert (HW : m_W (regularize_W o) = W').
  { unfold regularize_W. apply Rltb_true in H. rewrite H. simpl.
    rewrite regularized_W_code. unfold W', df.
    destruct (get_model_type (m_model o)); reflexivity. }
  assert (HsW : m_sW (compute_sW (regularize_W o)) = cwiseSqrt W').
  { unfold compute_sW. simpl. now rewrite HW. }
  repeat split; trivial.
  change (m_sW (snd (line_search opt (newton_direction (compute_sW (regularize_W o)))
                        (compute_sW (regularize_W o)))) = cwiseSqrt W').
  destruct (line_search_frame opt (newton_direction (compute_sW (regularize_W o)))
              (compute_sW (regularize_W o))) as (Hframe & _).
  now rewrite Hframe.
Qed.

Lemma gap_exceeds_true (old : psi_old) (new tol : R) :
  gap_exceeds old new tol = true <->
  match old with INFTY => True | Finite p => p - new > tol end.
Proof.
  destruct old as [|p]; simpl; [tauto|].
  unfold Rgtb. rewrite Rltb_true. unfold Rgt. tauto.
Qed.

Lemma loop_cond_iff (opt : CSingleLaplaceNewtonOptimizer) (s : newton_state) :
  loop_cond opt s = true <-> loop_cond_signed opt s.
Proof.
  unfold loop_cond, loop_cond_signed.
  rewrite andb_true_iff, gap_exceeds_true, Z.ltb_lt. tauto.
Qed.

Lemma run_loop_unfold (opt : CSingleLaplaceNewtonOptimizer) (s : newton_state) :
  run_loop opt s = if loop_cond opt s then run_loop opt (loop_body opt s) else s.
Proof.
  unfold run_loop. destruct (loop_cond opt s) eqn:E.
  - assert (Hlt : (iter s < m_iter opt)%Z) by (apply loop_cond_iff in E; apply E).
    replace (Z.to_nat (m_iter opt - iter s))
      with (S (Z.to_nat (m_iter opt - iter (loop_body opt s)))).
    + simpl. now rewrite E.
    + unfold loop_body. simpl. lia.
  - destruct (Z.to_nat (m_iter opt - iter s)); simpl; trivial. now rewrite E.
Qed.

Lemma newton_loop_exit (opt : CSingleLaplaceNewtonOptimizer) (n : nat) :
  forall s, n = Z.to_nat (m_iter opt - iter s) ->
            loop_cond opt (newton_loop opt n s) = false.
Proof.
  induction n as [|n IH]; intros s Hn; simpl.
  - unfold loop_cond. replace (iter s <? m_iter opt)%Z with false.
    + apply andb_false_r.
    + symmetry. apply Z.ltb_ge. lia.
  - destruct (loop_cond opt s) eqn:E; trivial.
    apply IH. unfold loop_body. simpl. lia.
Qed.

Lemma run_loop_exit (opt : CSingleLaplaceNewtonOptimizer) (s : newton_state) :
  loop_cond opt (run_loop opt s) = false.
Proof. unfold run_loop. now apply newton_loop_exit. Qed.

Lemma psi_trace_last (opt : CSingleLaplaceNewtonOptimizer) (n : nat) :
  forall s, In (Psi_New (newton_loop opt n s)) (psi_trace opt n s).
Proof.
  induction n as [|n IH]; intro s; simpl.
  - now left.
  - destruct (loop_cond opt s); [right; apply IH | now left].
Qed.

Lemma psi_trace_descends (opt : CSingleLaplaceNewtonOptimizer) (n : nat) :
  0 <= m_tolerance opt ->
  forall s,
    let s' := newton_loop opt n s in
    gap_exceeds (Psi_Old s') (Psi_New s') (m_tolerance opt) = true ->
    (forall p, In p (psi_trace opt n s) -> Psi_New s' <= p)
    /\ match Psi_Old s with INFTY => True | Finite q => Psi_New s' < q end.
Proof.
  intro Htol.
  assert (Hstay : forall s,
    gap_exceeds (Psi_Old s) (Psi_New s) (m_tolerance opt) = true ->
    (forall p, In p [Psi_New s] -> Psi_New s <= p)
    /\ match Psi_Old s with INFTY => True | Finite q => Psi_New s < q end).
  { intros s Hgap. split.
    - intros p [<- | []]. lra.
    - apply gap_exceeds_true in Hgap. destruct (Psi_Old s); trivial. lra. }
  induction n as [|n IH]; intros s s' Hgap.
  - now apply Hstay.
  - subst s'. simpl in Hgap |- *. destruct (loop_cond opt s) eqn:E.
    + destruct (IH (loop_body opt s) Hgap) as [Hall Hlast]. simpl in Hlast. split.
      * intros p [<- | Hin]; [lra | now apply Hall].
      * apply loop_cond_iff in E. destruct E as [E _].
        destruct (Psi_Old s); trivial. lra.
    + now apply Hstay.
Qed.

(** C2 (as the code has it).  The Newton loop runs exactly while the signed
    gap [Psi_Old − Psi_New] exceeds the tolerance and the iteration count is
    below the cap; [init] sets the tolerance to [1e-6] and the cap to [20].
    [minimize] never fails on a set target: it returns the last [Psi_New],
    and issues the warning exactly when the loop left with the gap still
    above the tolerance at the cap; in that case, for a tolerance that is
    not negative, the value returned is the least [Psi] of all iterations. *)
Theorem C2_newton_loop (opt : CSingleLaplaceNewtonOptimizer) (o : Obj) :
  (m_tolerance init = 1e-6 /\ m_iter init = 20%Z)
  /\ (forall s, loop_cond opt s = true <-> loop_cond_signed opt s)
  /\ (forall s, run_loop opt s
                = if loop_cond opt s then run_loop opt (loop_body opt s) else s)
  /\ exists r,
      minimize opt (Some o) = Ok r
      /\ let s' := run_loop opt (loop_entry o) in
         loop_cond opt s' = false
         /\ returned_Psi r = Psi_New s'
         /\ target_after r = target s'
         /\ (warned_max_iterations r = true <->
             gap_exceeds (Psi_Old s') (Psi_New s') (m_tolerance opt) = true
             /\ (m_iter opt <= iter s')%Z)
         /\ (0 <= m_tolerance opt ->
             warned_max_iterations r = true ->
             In (returned_Psi r) (psi_reached opt o)
             /\ forall p, In p (psi_reached opt o) -> returned_Psi r <= p).
Proof.
  split; [split; reflexivity|].
  split; [apply loop_cond_iff|]. split; [apply run_loop_unfold|].
  eexists. split; [reflexivity|]. simpl.
  split; [apply run_loop_exit|]. split; trivial. split; trivial. split.
  - now rewrite andb_true_iff, Z.leb_le.
  - intro Htol. rewrite andb_true_iff. intros [Hgap _].
    unfold psi_reached, run_loop in *.
    replace (m_iter opt - iter (loop_entry o))%Z with (m_iter opt) in * by (simpl; lia).
    split; [apply psi_trace_last|].
    now apply (psi_trace_descends opt _ Htol (loop_entry o)).
Qed.

(** ** [alpha] and [f] stay consistent *)

Lemma update_init_kernel (o : Obj) : K_scale2 (update_init o) = K_scale2 o.
Proof.
  unfold update_init. simpl.
  destruct (Nat.eqb (length (m_alpha o)) (get_num_labels (m_labels o))); simpl; trivial.
  match goal with |- context [Rltb ?a ?b] => destruct (Rltb a b) end; reflexivity.
Qed.

Lemma update_init_consistent (o : Obj) :
  num_rows (m_ktrtr o) = length (get_mean_vector (m_mean o) (m_features o)) ->
  consistent (update_init o).
Proof.
  intro Hsize. unfold consistent, f_of_alpha. rewrite update_init_kernel.
  fold (f_of_alpha o (m_alpha (update_init o)) (m_mean_f (update_init o))).
  destruct (Nat.eq_dec (length (m_alpha o)) (get_num_labels (m_labels o))) as [Heq | Hne].
  - destruct (update_init_warm o Heq) as (Hm & Hreset & Hkeep). rewrite Hm.
    match type of Hreset with ?a < ?b -> _ => destruct (Rlt_dec a b) as [Hlt | Hge] end.
    + destruct (Hreset Hlt) as (-> & -> & _). symmetry. now apply f_of_alpha_Zero.
    + destruct Hkeep as (-> & -> & _); [lra | reflexivity].
  - destruct (update_init_cold o Hne) as (-> & -> & -> & _).
    symmetry. now apply f_of_alpha_Zero.
Qed.

Lemma update_alpha_consistent (o : Obj) :
  match update_alpha o with
  | (Ok _, o') => consistent o'
  | (Raise _, _) => m_minimizer o = OtherMinimizer
  end.
Proof.
  unfold update_alpha, bindM, modify. destruct (m_minimizer o) as [opt | fo |]; simpl; trivial.
  - set (o' := target (run_loop opt (loop_entry o))).
    exact (code_f_left o' (m_alpha o') (m_mean_f o')).
  - exact (code_f_left o (fo_minimize fo (cost_function_view (set_target cost_function_init o) o))
             (m_mean_f o)).
Qed.

(** C5.  [f = K·scale²·alpha + mean] holds after every evaluation of the
    line-search objective, after [update_init] (the kernel matrix having one
    row per entry of the mean vector) and after [update_alpha], whichever of
    the Newton optimizer and a first-order minimizer drove it; [update_alpha]
    fails only for a minimizer of neither kind. *)
Theorem C5_alpha_f_consistent (o : Obj) :
  (forall d a l y x,
     consistent
       (snd (PsiLine_call
               {| log_scale := m_log_scale o; K := m_ktrtr o; dalpha := d;
                  start_alpha := a; lik := l; lab := y |} x o)))
  /\ (num_rows (m_ktrtr o) = length (get_mean_vector (m_mean o) (m_features o)) ->
      consistent (update_init o))
  /\ match update_alpha o with
     | (Ok _, o') => consistent o'
     | (Raise _, _) => m_minimizer o = OtherMinimizer
     end.
Proof.
  split; [|split].
  - intros. apply PsiLine_call_consistent.
  - apply update_init_consistent.
  - apply update_alpha_consistent.
Qed.

(** ** The negative log marginal likelihood *)

(** With the cached state current and a negative entry in [W], the value
    returned is [alpha·(f − mean)/2 − Σ log p(y|f)] plus half the log of the
    determinant of [I + K·scale²·diag(sW)]. *)
Lemma get_negative_log_marginal_likelihood_indefinite (o : Obj) :
  parameter_hash_changed o = false ->
  minCoeff (m_W o) < 0 ->
  get_negative_log_marginal_likelihood o
  = (Ok (Psi_of o (m_alpha o) (m_mu o) (get_mean_vector (m_mean o) (m_features o))
         + ln (lu_determinant (A_of o (m_sW o))) / 2), o).
Proof.
  intros Hhash HW. unfold get_negative_log_marginal_likelihood, bindM, gets, ret.
  rewrite Hhash. apply Rltb_true in HW. rewrite HW.
  unfold A_of, K_scale2, Psi_of. now rewrite scale2_exp.
Qed.


(** ** The line search and the Newton run, further *)

Lemma PsiLine_call_overwrites (func : PsiLine) (x x' : R) (o : Obj) :
  snd (PsiLine_call func x (snd (PsiLine_call func x' o))) = snd (PsiLine_call func x o).
Proof. reflexivity. Qed.

Lemma PsiLine_fold_last (func : PsiLine) (xs : list R) (x : R) (o : Obj) :
  fold_left (fun o' y => snd (PsiLine_call func y o')) (xs ++ [x]) o
  = snd (PsiLine_call func x o).
Proof.
  revert o. induction xs as [|y xs IH]; intro o.
  - reflexivity.
  - cbn [app fold_left]. rewrite IH. exact (PsiLine_call_overwrites func x y o).
Qed.

(** X1.  The object a line search leaves behind is the one written by its
    last evaluation of the objective, whatever abscissa and value the
    search reports; without any evaluation the object is left as it was. *)
Theorem line_search_keeps_last_evaluation
    (opt : CSingleLaplaceNewtonOptimizer) (d : SGVector) (o : Obj) :
  let func := PsiLine_of o d in
  let run := local_min 0 (m_opt_max opt) (m_opt_tolerance opt)
               (fun x => fst (PsiLine_call func x o)) in
  fst (line_search opt d o) = brent_fx run
  /\ snd (line_search opt d o)
     = match last_evaluation run with
       | None => o
       | Some x => snd (PsiLine_call func x o)
       end
  /\ match last_evaluation run with
     | None => m_alpha (snd (line_search opt d o)) = m_alpha o
     | Some x => m_alpha (snd (line_search opt d o)) = vadd (m_alpha o) (vmull x d)
     end.
Proof.
  intros func run.
  assert (Hsnd : snd (line_search opt d o)
                 = match last_evaluation run with
                   | None => o
                   | Some x => snd (PsiLine_call func x o)
                   end).
  { unfold line_search. fold (PsiLine_of o d). fold func. fold run. cbn [snd].
    unfold last_evaluation.
    destruct (rev (brent_evals run)) as [|x rest] eqn:E.
    - apply (f_equal (@rev R)) in E. rewrite rev_involutive in E. rewrite E. reflexivity.
    - apply (f_equal (@rev R)) in E. rewrite rev_involutive in E. simpl in E.
      rewrite E. apply PsiLine_fold_last. }
  split; [reflexivity|]. split; [exact Hsnd|].
  rewrite Hsnd. destruct (last_evaluation run); reflexivity.
Qed.

(** X2.  The value [PsiLine::operator()] returns at a step [x] is the value
    [get_psi_wrt_alpha] gives on the object that call leaves: the Newton
    line search and the first-order cost function evaluate one and the same
    objective. *)
Theorem PsiLine_value_is_cost (o : Obj) (d : SGVector) (x : R) :
  fst (PsiLine_call (PsiLine_of o d) x o)
  = get_psi_wrt_alpha (snd (PsiLine_call (PsiLine_of o d) x o)).
Proof.
  rewrite get_psi_wrt_alpha_spec. simpl.
  pose proof (code_f_middle o (vadd (m_alpha o) (vmull x d)) (m_mean_f o)) as H.
  unfold exp_2_log_scale in H. rewrite H.
  unfold Psi_of_alpha, Psi_of. reflexivity.
Qed.


Lemma PsiLine_fold_outside (func : PsiLine) (xs : list R) (o : Obj) :
  outside_newton (fold_left (fun o' x => snd (PsiLine_call func x o')) xs o)
  = outside_newton o.
Proof.
  revert o. induction xs as [|x xs IH]; intro o; simpl; trivial.
  now rewrite IH.
Qed.

Lemma regularize_W_outside (o : Obj) :
  outside_newton (regularize_W o) = outside_newton o
  /\ m_alpha (regularize_W o) = m_alpha o /\ m_mu (regularize_W o) = m_mu o.
Proof. unfold regularize_W. destruct (Rltb (minCoeff (m_W o)) 0); auto. Qed.

Lemma loop_body_outside (opt : CSingleLaplaceNewtonOptimizer) (s : newton_state) :
  outside_newton (target (loop_body opt s)) = outside_newton (target s).
Proof.
  unfold loop_body, line_search. cbn [target snd].
  rewrite PsiLine_fold_outside.
  change (outside_newton (compute_sW (regularize_W (target s))))
    with (outside_newton (regularize_W (target s))).
  apply regularize_W_outside.
Qed.

Lemma newton_loop_outside (opt : CSingleLaplaceNewtonOptimizer) (n : nat) :
  forall s, outside_newton (target (newton_loop opt n s)) = outside_newton (target s).
Proof.
  induction n as [|n IH]; intro s; simpl; trivial.
  destruct (loop_cond opt s); trivial.
  rewrite IH. apply loop_body_outside.
Qed.

Lemma loop_body_consistent (opt : CSingleLaplaceNewtonOptimizer) (s : newton_state) :
  consistent (target s) -> consistent (target (loop_body opt s)).
Proof.
  intro H. unfold loop_body. cbn [target].
  apply line_search_consistent.
  destruct (regularize_W_outside (target s)) as (Hout & Ha & Hmu).
  unfold consistent, f_of_alpha, K_scale2, scale in *.
  change (m_mu (compute_sW (regularize_W (target s)))) with (m_mu (regularize_W (target s))).
  change (m_alpha (compute_sW (regularize_W (target s))))
    with (m_alpha (regularize_W (target s))).
  change (m_mean_f (compute_sW (regularize_W (target s))))
    with (m_mean_f (regularize_W (target s))).
  change (m_ktrtr (compute_sW (regularize_W (target s))))
    with (m_ktrtr (regularize_W (target s))).
  change (m_log_scale (compute_sW (regularize_W (target s))))
    with (m_log_scale (regularize_W (target s))).
  unfold outside_newton in Hout. injection Hout as _ _ HK Hs Hm.
  now rewrite Ha, Hmu, HK, Hs, Hm.
Qed.

Lemma newton_loop_consistent (opt : CSingleLaplaceNewtonOptimizer) (n : nat) :
  forall s, consistent (target s) -> consistent (target (newton_loop opt n s)).
Proof.
  induction n as [|n IH]; intros s H; simpl; trivial.
  destruct (loop_cond opt s); trivial.
  apply IH. now apply loop_body_consistent.
Qed.

Lemma loop_body_iter (opt : CSingleLaplaceNewtonOptimizer) (s : newton_state) :
  iter (loop_body opt s) = (iter s + 1)%Z.
Proof. reflexivity. Qed.

Lemma loop_entry_iter (o : Obj) : iter (loop_entry o) = 0%Z.
Proof. reflexivity. Qed.

Lemma newton_loop_iter (opt : CSingleLaplaceNewtonOptimizer) (n : nat) :
  forall s, (iter s <= iter (newton_loop opt n s) <= iter s + Z.of_nat n)%Z.
Proof.
  induction n as [|n IH]; intro s; cbn [newton_loop].
  - lia.
  - destruct (loop_cond opt s); [|lia].
    specialize (IH (loop_body opt s)). rewrite loop_body_iter in IH. lia.
Qed.


Lemma set_mu_same (o : Obj) : set_mu o (m_mu o) = o.
Proof. destruct o. reflexivity. Qed.

(** X3.  With an iteration cap that is zero or negative, [minimize] runs no
    iteration: it returns the [m_Psi] it found, issues the
    maximum-iterations warning, and leaves [alpha] and [f] as they were. *)
Theorem minimize_without_iterations (opt : CSingleLaplaceNewtonOptimizer) (o : Obj) :
  (m_iter opt <= 0)%Z ->
  exists r,
    minimize opt (Some o) = Ok r
    /\ returned_Psi r = m_Psi o
    /\ warned_max_iterations r = true
    /\ m_alpha (target_after r) = m_alpha o
    /\ m_mu (target_after r) = m_mu o.
Proof.
  intro H. eexists. split; [reflexivity|].
  unfold run_loop. cbn [iter loop_entry].
  replace (Z.to_nat (m_iter opt - 0)) with O by lia.
  cbn. repeat split. apply Z.leb_le. exact H.
Qed.

(** X4.  The number of iterations [minimize] runs lies between zero and the
    cap, and when the cap is at least one the first iteration always runs,
    whatever the tolerance (the loop is entered with [Psi_Old] infinite). *)
Theorem minimize_iteration_count (opt : CSingleLaplaceNewtonOptimizer) (o : Obj) :
  let s' := run_loop opt (loop_entry o) in
  (0 <= iter s' <= Z.max 0 (m_iter opt))%Z
  /\ ((1 <= m_iter opt)%Z -> (1 <= iter s')%Z).
Proof.
  intro s'. subst s'. split.
  - unfold run_loop.
    pose proof (newton_loop_iter opt (Z.to_nat (m_iter opt - iter (loop_entry o)))
                  (loop_entry o)) as H.
    rewrite loop_entry_iter in H |- *. lia.
  - intro Hcap. rewrite run_loop_unfold.
    assert (Hc : loop_cond opt (loop_entry o) = true).
    { unfold loop_cond. rewrite loop_entry_iter. apply andb_true_iff. split.
      - reflexivity.
      - apply Z.ltb_lt. lia. }
    rewrite Hc. unfold run_loop.
    pose proof (newton_loop_iter opt
                  (Z.to_nat (m_iter opt - iter (loop_body opt (loop_entry o))))
                  (loop_body opt (loop_entry o))) as H.
    rewrite loop_body_iter, loop_entry_iter in H |- *. lia.
Qed.

(** X5.  [update_alpha] never writes [m_Psi], whichever minimizer is
    registered and whether or not it fails: the value [minimize] returns is
    dropped, so [m_Psi] keeps what [update_init] stored.  The kernel matrix,
    the scale, the prior mean, the factor [L] and the cached gradient
    quantities are left alone as well. *)
Theorem update_alpha_keeps_Psi (o : Obj) :
  m_Psi (snd (update_alpha o)) = m_Psi o
  /\ outside_newton (snd (update_alpha o)) = outside_newton o.
Proof.
  assert (H : outside_newton (snd (update_alpha o)) = outside_newton o).
  { unfold update_alpha, bindM, modify. destruct (m_minimizer o) as [opt | fo |]; cbn.
    - change (outside_newton (target (run_loop opt (loop_entry o))) = outside_newton o).
      unfold run_loop. rewrite newton_loop_outside. reflexivity.
    - reflexivity.
    - reflexivity. }
  split; trivial. unfold outside_newton in H. now injection H.
Qed.

(** X6.  A Newton run keeps [f = K·scale²·alpha + mean]: started on a
    consistent object, [minimize] returns a consistent one, and the
    recomputation of [f] that ends [update_alpha] then changes nothing. *)
Theorem minimize_keeps_consistent (opt : CSingleLaplaceNewtonOptimizer) (o : Obj) :
  consistent o ->
  exists r,
    minimize opt (Some o) = Ok r
    /\ consistent (target_after r)
    /\ (m_minimizer o = Newton opt -> update_alpha o = (Ok tt, target_after r)).
Proof.
  intro H. eexists. split; [reflexivity|]. cbn [target_after].
  assert (Hc : consistent (target (run_loop opt (loop_entry o)))).
  { unfold run_loop. apply newton_loop_consistent. exact H. }
  split; [exact Hc|].
  intro Hm. unfold update_alpha, bindM, modify. rewrite Hm. cbn.
  f_equal. set (o' := target (run_loop opt (loop_entry o))) in *.
  rewrite (code_f_left o' (m_alpha o') (m_mean_f o')).
  unfold consistent in Hc. rewrite <- Hc. apply set_mu_same.
Qed.


(** ** [update_chol] and [update_deriv], further *)

Lemma signed_sqrt_sign (w : R) :
  let s := sqrt ((Rabs w + w) / 2) - sqrt ((Rabs w - w) / 2) in
  s * Rabs s = w.
Proof.
  intro s. subst s. destruct (Rle_lt_dec 0 w) as [Hw | Hw].
  - rewrite signed_sqrt_nonneg by exact Hw.
    rewrite Rabs_pos_eq by apply sqrt_pos. now apply sqrt_sqrt.
  - rewrite (Rabs_left w Hw).
    replace ((- w + w) / 2) with 0 by lra.
    replace ((- w - w) / 2) with (- w) by lra.
    rewrite sqrt_0.
    replace (0 - sqrt (- w)) with (- sqrt (- w)) by lra.
    rewrite Rabs_Ropp, Rabs_pos_eq by apply sqrt_pos.
    assert (H : sqrt (- w) * sqrt (- w) = - w) by (apply sqrt_sqrt; lra).
    lra.
Qed.

Lemma Forall2_map_l {A : Type} (P : A -> A -> Prop) (f : A -> A) (l : list A) :
  Forall (fun x => P (f x) x) l -> Forall2 P (map f l) l.
Proof. induction 1; simpl; constructor; trivial. Qed.

Lemma update_chol_outside (o : Obj) : outside_chol (update_chol o) = outside_chol o.
Proof.
  unfold update_chol. cbn.
  match goal with |- context [Rgtb ?a 0] => destruct (Rgtb a 0) end; cbn;
    match goal with |- context [Rltb ?a 0] => destruct (Rltb a 0) end; reflexivity.
Qed.

Lemma update_chol_sW_signed (o : Obj) :
  Forall2 (fun s w => s * Rabs s = w) (m_sW (update_chol o)) (W_of o).
Proof.
  destruct (Rlt_dec (minCoeff (W_of o)) 0) as [Hneg | Hpos].
  - destruct (update_chol_indefinite o Hneg) as (HsW & _). rewrite HsW.
    apply Forall2_map_l. apply Forall_forall. intros w _. apply signed_sqrt_sign.
  - assert (H0 : 0 <= minCoeff (W_of o)) by lra.
    destruct (update_chol_psd o H0) as (HsW & _). rewrite HsW.
    unfold cwiseSqrt. apply Forall2_map_l.
    eapply Forall_impl; [|apply (minCoeff_nonneg _ H0)].
    intros w Hw. cbn beta. rewrite Rabs_pos_eq by apply sqrt_pos. now apply sqrt_sqrt.
Qed.


(** X7.  In both branches of [update_chol] the vector [sW] is the signed
    square root of [W = −d2lp]: entry by entry [sW·|sW| = W], so [sW] has
    the sign of [W] and its square is [|W|] (the source's comment:
    [sW = sqrt(abs(W)).*sign(W)]). *)
Theorem update_chol_signed_root (o : Obj) :
  let o' := update_chol o in
  m_W o' = W_of o
  /\ Forall2 (fun s w => s * Rabs s = w) (m_sW o') (m_W o').
Proof.
  intro o'. subst o'.
  destruct (update_chol_W o) as (HW & _).
  split; [exact HW|].
  rewrite HW. apply update_chol_sW_signed.
Qed.

Lemma mneg_asDiagonal_mul_mneg (w : SGVector) (A : SGMatrix) :
  mneg (asDiagonal_mul w (mneg A)) = asDiagonal_mul w A.
Proof.
  unfold mneg, asDiagonal_mul. revert A.
  induction w as [|x w IH]; intros [|r A]; simpl; trivial.
  rewrite IH. f_equal. unfold vneg, vmull. rewrite !map_map.
  apply map_ext. intro y. lra.
Qed.

(** X8.  When [W] has a negative entry, [update_deriv] run after
    [update_chol] yields [Z = diag(W)·A⁻¹] and
    [g = rowSums(A⁻¹ ⊙ K·scale²)/2] for the one matrix
    [A = I + K·scale²·diag(W)] that both methods invert: the two negations
    (of [L] in [update_chol], of [Z] in [update_deriv]) cancel. *)
Theorem update_deriv_after_update_chol_indefinite (o : Obj) :
  minCoeff (W_of o) < 0 ->
  let iA := lu_inverse (A_of o (W_of o)) in
  let o' := update_deriv (update_chol o) in
  m_Z o' = asDiagonal_mul (W_of o) iA
  /\ m_g o' = vdivr (rowwise_sum (mcwiseProduct iA (K_scale2 o))) 2
  /\ m_dfhat o' = cwiseProduct (m_g o') (m_d3lp (update_chol o)).
Proof.
  intros Hneg iA o'.
  destruct (update_chol_W o) as (HW & _).
  destruct (update_chol_indefinite o Hneg) as (_ & HL).
  pose proof (update_chol_outside o) as Hout.
  unfold outside_chol in Hout. injection Hout as _ _ _ HK Hs.
  assert (Hlt : Rltb (minCoeff (m_W (update_chol o))) 0 = true)
    by (rewrite HW; now apply Rltb_true).
  subst o'. unfold update_deriv. rewrite Hlt.
  cbn [m_Z m_g m_dfhat m_d3lp set_Z set_g set_dfhat m_ktrtr m_L m_W].
  unfold exp_2_log_scale. cbn [m_log_scale set_Z].
  rewrite HK, Hs, HW, HL.
  fold (exp_2_log_scale o). rewrite scale2_exp.
  fold (K_scale2 o). fold (A_of o (W_of o)). fold iA.
  rewrite mneg_asDiagonal_mul_mneg. auto.
Qed.


(** ** [update] and the lazily updated accessors *)

Lemma update_unfold (o : Obj) :
  update o
  = match update_alpha (update_init (CInference_update o)) with
    | (Ok _, o2) => (Ok tt, set_hash (update_chol o2) false false)
    | (Raise e, o2) => (Raise e, o2)
    end.
Proof.
  unfold update, bindM, modify. cbn.
  destruct (update_alpha (update_init (CInference_update o))) as [[[] | e] o2]; reflexivity.
Qed.






Lemma lazy_update_marks_current (o o1 : Obj) :
  (if parameter_hash_changed o then update o else ret tt o) = (Ok tt, o1) ->
  parameter_hash_changed o1 = false.
Proof.
  intro H. destruct (parameter_hash_changed o) eqn:E.
  - rewrite update_unfold in H.
    destruct (update_alpha (update_init (CInference_update o))) as [[[] | e] o2];
      [|discriminate H].
    injection H as <-. reflexivity.
  - unfold ret in H. injection H as <-. exact E.
Qed.

(** X10.  The lazy update is a cache.  After a call of
    [get_negative_log_marginal_likelihood] or of [get_diagonal_vector] that
    returns, the object is marked current, and the same call made again
    returns the same value and leaves the object untouched. *)
Theorem accessors_cache (o o' : Obj) :
  (forall v, get_negative_log_marginal_likelihood o = (Ok v, o') ->
     parameter_hash_changed o' = false
     /\ get_negative_log_marginal_likelihood o' = (Ok v, o'))
  /\ (forall v, get_diagonal_vector o = (Ok v, o') ->
        parameter_hash_changed o' = false
        /\ get_diagonal_vector o' = (Ok v, o')).
Proof.
  split; intros v H.
  - unfold get_negative_log_marginal_likelihood, bindM, gets in H |- *.
    destruct (if parameter_hash_changed o then update o else ret tt o)
      as [[[] | e] o1] eqn:E; [|discriminate H].
    injection H as Hv Ho. subst o'.
    pose proof (lazy_update_marks_current o o1 E) as Hc. split; [exact Hc|].
    rewrite Hc. unfold ret. now rewrite Hv.
  - unfold get_diagonal_vector, bindM, gets in H |- *.
    destruct (if parameter_hash_changed o then update o else ret tt o)
      as [[[] | e] o1] eqn:E; [|discriminate H].
    injection H as Hv Ho. subst o'.
    pose proof (lazy_update_marks_current o o1 E) as Hc. split; [exact Hc|].
    rewrite Hc. unfold ret. now rewrite Hv.
Qed.


(** ** The cost function and [update_init], further *)

(** X11.  [get_gradient] succeeds exactly when the buffer [m_derivatives]
    has the length of [alpha].  A cost function whose target was just set
    has an empty buffer, so its [get_gradient] raises unless [alpha] is
    empty: [obtain_variable_reference] must be called first, and again
    whenever the length of [alpha] has changed. *)
Theorem get_gradient_needs_variable_reference
    (cf : SingleLaplaceInferenceMethodCostFunction) (o : Obj) :
  (length (m_derivatives cf) = length (m_alpha o) <->
   exists g cf', get_gradient (set_target cf o) = Ok (g, cf'))
  /\ (m_alpha o <> [] ->
      exists e, get_gradient (set_target cost_function_init o) = Raise e).
Proof.
  split; [split|].
  - intro H. unfold get_gradient. cbn.
    rewrite (get_gradient_wrt_alpha_spec o (m_derivatives cf) H). cbn.
    eexists. eexists. reflexivity.
  - intros (g & cf' & H).
    destruct (Nat.eq_dec (length (m_derivatives cf)) (length (m_alpha o))) as [|Hne]; trivial.
    destruct (get_gradient_wrt_alpha_length o (m_derivatives cf) Hne) as (e & He).
    unfold get_gradient in H. cbn in H. rewrite He in H. discriminate H.
  - intro Hne.
    assert (Hlen : length (m_derivatives cost_function_init) <> length (m_alpha o)).
    { cbn. destruct (m_alpha o); [contradiction | discriminate]. }
    destruct (get_gradient_wrt_alpha_length o _ Hlen) as (e & He).
    exists e. unfold get_gradient. cbn. cbn in He. now rewrite He.
Qed.

Lemma vsub_self (v : SGVector) : vsub v v = Zero (length v).
Proof.
  unfold vsub, Zero. induction v as [|x v IH]; simpl; trivial.
  rewrite IH. f_equal. lra.
Qed.

(** X12.  At a fixed point [alpha = dlp(f)] with [f = K·scale²·alpha + mean],
    the gradient of the cost function with respect to [alpha] is the zero
    vector, one entry per row of the kernel matrix. *)
Theorem gradient_vanishes_at_fixed_point (o : Obj) :
  m_alpha o
  = get_log_probability_derivative_f (m_model o) (m_labels o)
      (f_of_alpha o (m_alpha o) (m_mean_f o)) 1 ->
  get_gradient_wrt_alpha o (m_alpha o) = Ok (Zero (num_rows (m_ktrtr o))).
Proof.
  intro H. rewrite get_gradient_wrt_alpha_spec by reflexivity.
  unfold gradient_of_alpha. rewrite <- H, vsub_self, mulv_Zero.
  unfold K_scale2. now rewrite length_mmulr.
Qed.

Lemma update_init_collaborators (o : Obj) :
  m_model (update_init o) = m_model o /\ m_labels (update_init o) = m_labels o.
Proof.
  unfold update_init. cbn.
  repeat (match goal with |- context [if ?c then _ else _] => destruct c; cbn end);
    auto.
Qed.

Lemma Psi_of_alpha_Zero (o : Obj) (n : nat) (mean : SGVector) :
  num_rows (m_ktrtr o) = length mean ->
  Psi_of_alpha o (Zero n) mean
  = - sum (get_log_probability_f (m_model o) (m_labels o) mean).
Proof.
  intro H. unfold Psi_of_alpha, Psi_of.
  rewrite f_of_alpha_Zero by exact H. rewrite dot_Zero_l. lra.
Qed.

(** X13.  The [m_Psi] that [update_init] stores is the value of the cost
    function [get_psi_wrt_alpha] on the object it leaves, in every branch
    (the kernel matrix having one row per entry of the mean vector): the
    Newton loop and a first-order minimizer start from the same objective
    value. *)
Theorem update_init_Psi_is_cost (o : Obj) :
  num_rows (m_ktrtr o) = length (get_mean_vector (m_mean o) (m_features o)) ->
  m_Psi (update_init o) = get_psi_wrt_alpha (update_init o).
Proof.
  intro Hsize. rewrite get_psi_wrt_alpha_spec.
  destruct (update_init_collaborators o) as (Hmodel & Hlab).
  assert (Hsame : forall a m, Psi_of_alpha (update_init o) a m = Psi_of_alpha o a m).
  { intros a m. unfold Psi_of_alpha, Psi_of, f_of_alpha.
    now rewrite update_init_kernel, Hmodel, Hlab. }
  rewrite Hsame.
  destruct (Nat.eq_dec (length (m_alpha o)) (get_num_labels (m_labels o))) as [Heq | Hne].
  - destruct (update_init_warm o Heq) as (Hm & Hreset & Hkeep). rewrite Hm.
    match type of Hreset with ?a < ?b -> _ => destruct (Rlt_dec a b) as [Hlt | Hge] end.
    + destruct (Hreset Hlt) as (-> & _ & ->). symmetry. now apply Psi_of_alpha_Zero.
    + destruct Hkeep as (-> & _ & ->); [lra | reflexivity].
  - destruct (update_init_cold o Hne) as (-> & _ & -> & ->).
    symmetry. now apply Psi_of_alpha_Zero.
Qed.

Lemma regularized_W_above (c : R) (W dlp : SGVector) :
  0 <= c -> length dlp = length W ->
  Forall2 Rle W (zipWith (fun w d => w + c * (d * d)) W dlp).
Proof.
  intro Hc. revert dlp. induction W as [|w W IH]; intros [|d dlp] Hlen;
    simpl in *; try discriminate; constructor.
  - pose proof (Rle_0_sqr d) as Hd. unfold Rsqr in Hd. nra.
  - apply IH. lia.
Qed.

Lemma Forall2_Rle_refl (v : SGVector) : Forall2 Rle v v.
Proof. induction v; constructor; trivial. lra. Qed.

(** X14.  The correction of [W] in a Newton iteration never lowers an
    entry: with [dlp] as long as [W] and a positive number of degrees of
    freedom for a Student's t likelihood, every entry of [W] after
    [regularize_W] is at least the entry before. *)
Theorem regularize_W_never_lowers (o : Obj) :
  length (m_dlp o) = length (m_W o) ->
  (get_model_type (m_model o) = LT_STUDENTST -> 0 < get_degrees_freedom (m_model o)) ->
  Forall2 Rle (m_W o) (m_W (regularize_W o)).
Proof.
  intros Hlen Hdf. unfold regularize_W.
  destruct (Rltb (minCoeff (m_W o)) 0); [|apply Forall2_Rle_refl].
  cbn. rewrite regularized_W_code. unfold regularized_W.
  apply regularized_W_above; trivial.
  destruct (get_model_type (m_model o)) eqn:E; cbn; try lra.
  specialize (Hdf eq_refl).
  apply Rlt_le. apply Rdiv_lt_0_compat; lra.
Qed.


(** ** The remaining derivatives, the minimizer registration, the posterior *)

(** X15.  For a kernel parameter with one element whose gradient matrix is
    the kernel matrix itself, the derivative with respect to ["log_scale"]
    is twice the derivative [get_derivative_wrt_kernel] returns for that
    parameter; both calls leave the object as it was.  With a [NULL]
    parameter [get_derivative_wrt_kernel] raises and writes nothing. *)
Theorem log_scale_derivative_is_twice_kernel_derivative
    (o : Obj) (param p : TParameter) :
  get_derivative_wrt_kernel None o = (Raise (SG_ERROR "Param not set"), o)
  /\ (m_name param = "log_scale"%string ->
      get_num_elements p = 1%nat ->
      kernel_parameter_gradient o p None = m_ktrtr o ->
      exists g,
        get_derivative_wrt_kernel (Some p) o = (Ok [g], o)
        /\ get_derivative_wrt_inference_method param o = (Ok [2 * g], o)).
Proof.
  split; [reflexivity|]. intros Hname Hlen HdK.
  eexists. split.
  - unfold get_derivative_wrt_kernel, gets. rewrite Hlen. cbn [seq map Nat.eqb].
    rewrite HdK. reflexivity.
  - unfold get_derivative_wrt_inference_method, bindM, require, gets, REQUIRE.
    apply String.eqb_eq in Hname. rewrite Hname.
    match goal with |- (Ok [?a], _) = (Ok [?b], _) => replace a with b by ring end.
    reflexivity.
Qed.




Lemma vsub_vadd (a m : SGVector) : length a = length m -> vsub (vadd a m) m = a.
Proof.
  unfold vsub, vadd. revert m. induction a as [|x a IH]; intros [|y m] H;
    simpl in *; try discriminate; trivial.
  rewrite IH by lia. f_equal. lra.
Qed.

(** X17.  On an object that [compute_gradient] leaves consistent, with the
    cached prior mean equal to the mean vector and as long as the kernel
    matrix has rows, [get_posterior_mean] returns [K·scale²·alpha]. *)
Theorem get_posterior_mean_is_K_alpha (o o' : Obj) :
  compute_gradient o = (Ok tt, o') ->
  consistent o' ->
  m_mean_f o' = get_mean_vector (m_mean o') (m_features o') ->
  num_rows (m_ktrtr o') = length (m_mean_f o') ->
  get_posterior_mean o = (Ok (mulv (K_scale2 o') (m_alpha o')), o').
Proof.
  intros Hcg Hc Hmean Hsize. unfold get_posterior_mean, bindM, gets. rewrite Hcg.
  rewrite <- Hmean. unfold consistent in Hc. rewrite Hc. unfold f_of_alpha.
  rewrite vsub_vadd; trivial.
  unfold mulv. rewrite length_map. unfold K_scale2. now rewrite length_mmulr.
Qed.


(** ** The posterior covariance *)

Lemma length_zipWith {A B C : Type} (f : A -> B -> C) (u : list A) (v : list B) :
  length (zipWith f u v) = Nat.min (length u) (length v).
Proof.
  revert v. induction u as [|x u IH]; intros [|y v]; simpl; trivial.
  now rewrite IH.
Qed.

Lemma nth_zipWith {A B C : Type} (f : A -> B -> C) (u : list A) (v : list B)
    (i : nat) (da : A) (db : B) (dc : C) :
  (i < length u)%nat -> (i < length v)%nat ->
  nth i (zipWith f u v) dc = f (nth i u da) (nth i v db).
Proof.
  revert v i. induction u as [|x u IH]; intros [|y v] [|i] Hu Hv;
    simpl in *; try lia; trivial.
  apply IH; lia.
Qed.

Lemma dot_comm (u v : SGVector) : dot u v = dot v u.
Proof.
  unfold dot, cwiseProduct, sum. revert v.
  induction u as [|x u IH]; intros [|y v]; simpl; trivial.
  rewrite IH. lra.
Qed.

Lemma nth_map_rows {A : Type} (F : A -> SGVector) (l : list A) (d : A) (i : nat) :
  (i < length l)%nat -> nth i (map F l) [] = F (nth i l d).
Proof.
  intro H. rewrite (nth_indep _ [] (F d)) by (now rewrite length_map).
  apply map_nth.
Qed.

Lemma nth_map_entries {A : Type} (F : A -> R) (l : list A) (d : A) (j : nat) :
  (j < length l)%nat -> nth j (map F l) 0 = F (nth j l d).
Proof.
  intro H. rewrite (nth_indep _ 0 (F d)) by (now rewrite length_map).
  apply map_nth.
Qed.

Lemma square_row_length (A : SGMatrix) (i : nat) :
  square A -> (i < num_rows A)%nat -> length (nth i A []) = num_rows A.
Proof.
  intros Hsq Hi. unfold square in Hsq. rewrite Forall_forall in Hsq.
  apply Hsq. now apply nth_In.
Qed.

Lemma msub_entry (A G : SGMatrix) (i j : nat) :
  square A -> square G ->
  entry_at (msub A G) i j
  = if (i <? Nat.min (num_rows A) (num_rows G)) && (j <? Nat.min (num_rows A) (num_rows G))
    then entry_at A i j - entry_at G i j
    else 0.
Proof.
  intros HA HG. pose proof (square_row_length A i HA) as HlA.
  pose proof (square_row_length G i HG) as HlG.
  unfold entry_at, msub, vsub, num_rows in *.
  unfold SGMatrix, SGVector, float64_t in *.
  destruct (i <? Nat.min (length A) (length G)) eqn:Ei; cbn [andb].
  - apply Nat.ltb_lt in Ei.
    rewrite (nth_zipWith _ A G i [] [] []) by lia.
    destruct (j <? Nat.min (length A) (length G)) eqn:Ej.
    + apply Nat.ltb_lt in Ej. apply nth_zipWith; lia.
    + apply Nat.ltb_ge in Ej. apply nth_overflow. rewrite length_zipWith. lia.
  - apply Nat.ltb_ge in Ei.
    rewrite (nth_overflow (zipWith _ A G)) by (rewrite length_zipWith; lia).
    now destruct j.
Qed.

Lemma mmulr_entry (A : SGMatrix) (c : R) (i j : nat) :
  entry_at (mmulr A c) i j = entry_at A i j * c.
Proof.
  unfold entry_at, mmulr, vmulr. unfold SGMatrix, SGVector, float64_t in *.
  assert (Hrow : nth i (map (fun r => map (fun x => x * c) r) A) []
                 = map (fun x => x * c) (nth i A [])).
  { destruct (Nat.lt_ge_cases i (length A)) as [Hi | Hi].
    - apply (nth_map_rows (fun r => map (fun x => x * c) r) A [] i Hi).
    - rewrite !nth_overflow; trivial. now rewrite length_map. }
  rewrite Hrow.
  destruct (Nat.lt_ge_cases j (length (nth i A []))) as [Hj | Hj].
  - apply (nth_map_entries (fun x => x * c) (nth i A []) 0 j Hj).
  - rewrite !nth_overflow; try lra; trivial. now rewrite length_map.
Qed.

Lemma mmulr_square (A : SGMatrix) (c : R) : square A -> square (mmulr A c).
Proof.
  unfold square, mmulr, num_rows. intro H. rewrite length_map.
  apply Forall_map. eapply Forall_impl; [|exact H].
  intros r Hr. cbn beta. unfold vmulr. now rewrite length_map.
Qed.

(** [V.adjoint() * V], the matrix of the dot products of the columns. *)
Lemma gram_square (V : SGMatrix) : square (mmul (transpose V) V).
Proof.
  unfold square, mmul, num_rows. rewrite length_map.
  apply Forall_map. apply Forall_forall. intros r _. now rewrite length_map.
Qed.

Lemma gram_symmetric (V : SGMatrix) : symmetric (mmul (transpose V) V).
Proof.
  intros i j. unfold entry_at, mmul.
  generalize (transpose V). intro cols.
  unfold SGMatrix, SGVector, float64_t in *.
  set (G := map (fun r : list R => map (fun c : list R => dot r c) cols) cols).
  assert (Hrow : forall a, (a < length cols)%nat ->
            nth a G [] = map (fun c => dot (nth a cols []) c) cols).
  { intros a Ha. apply (nth_map_rows (fun r => map (fun c => dot r c) cols) cols [] a Ha). }
  assert (Hin : forall a b, (a < length cols)%nat -> (b < length cols)%nat ->
            nth b (nth a G []) 0 = dot (nth a cols []) (nth b cols [])).
  { intros a b Ha Hb. rewrite (Hrow a Ha).
    apply (nth_map_entries (fun c => dot (nth a cols []) c) cols [] b Hb). }
  assert (Hrow_out : forall a, (length cols <= a)%nat -> nth a G [] = []).
  { intros a Ha. apply nth_overflow. unfold G. now rewrite length_map. }
  assert (Hcol_out : forall a b, (a < length cols)%nat -> (length cols <= b)%nat ->
            nth b (nth a G []) 0 = 0).
  { intros a b Ha Hb. rewrite (Hrow a Ha). apply nth_overflow. now rewrite length_map. }
  assert (Hnil : forall b, nth b (@nil R) 0 = 0) by (intros [|b]; reflexivity).
  destruct (Nat.lt_ge_cases i (length cols)) as [Hi | Hi];
    destruct (Nat.lt_ge_cases j (length cols)) as [Hj | Hj].
  - rewrite (Hin i j Hi Hj), (Hin j i Hj Hi). apply dot_comm.
  - now rewrite (Hcol_out i j Hi Hj), (Hrow_out j Hj), Hnil.
  - now rewrite (Hrow_out i Hi), Hnil, (Hcol_out j i Hj Hi).
  - now rewrite (Hrow_out i Hi), (Hrow_out j Hj), !Hnil.
Qed.

(** X18.  The posterior covariance [Sigma = K·scale² − VᵗV] that
    [update_approx_cov] computes is symmetric whenever the kernel matrix is
    square and symmetric, whatever the triangular solve returns for [V]. *)
Theorem update_approx_cov_symmetric (o : Obj) :
  square (m_ktrtr o) -> symmetric (m_ktrtr o) -> symmetric (update_approx_cov o).
Proof.
  intros Hsq Hsym i j. unfold update_approx_cov.
  set (V := upper_adjoint_solve _ _).
  rewrite !msub_entry by (apply mmulr_square || apply gram_square; exact Hsq).
  rewrite (andb_comm (j <? _)).
  destruct ((i <? _) && (j <? _)); trivial.
  rewrite !mmulr_entry, (Hsym i j), (gram_symmetric V i j). reflexivity.
Qed.

End Operations.

(** ** The concrete problem, evaluated *)

Lemma sqrt_4_25 : sqrt (4 / 25) = 2 / 5.
Proof. replace (4 / 25) with (2 / 5 * (2 / 5)) by lra. apply sqrt_square. lra. Qed.

Lemma W_of_mode_object : W_of mode_object = [- (4 / 25)].
Proof. unfold W_of, SGVector_scale, vmulr. simpl. f_equal. field. Qed.

Lemma signed_sqrt_4_25 :
  sqrt ((Rabs (- (4 / 25)) + - (4 / 25)) / 2) - sqrt ((Rabs (- (4 / 25)) - - (4 / 25)) / 2)
  = - (2 / 5).
Proof.
  rewrite Rabs_Ropp, Rabs_pos_eq by lra.
  replace ((4 / 25 + - (4 / 25)) / 2) with 0 by lra.
  replace ((4 / 25 - - (4 / 25)) / 2) with (4 / 25) by lra.
  rewrite sqrt_0, sqrt_4_25. lra.
Qed.

Lemma A_of_mode_object_W : A_of mode_object (m_W mode_object) = [[21 / 25]].
Proof.
  unfold A_of, K_scale2, scale. simpl. rewrite exp_0.
  unfold madd, vadd. simpl. do 2 f_equal. lra.
Qed.

Lemma A_of_mode_object_sW : A_of mode_object (m_sW mode_object) = [[3 / 5]].
Proof.
  unfold A_of, K_scale2, scale. simpl. rewrite exp_0.
  unfold madd, vadd. simpl. do 2 f_equal. lra.
Qed.

(** The cached [W], [sW] and [L] of [mode_object] are the ones [update_chol]
    computes at its [f], and its [alpha] is a stationary point of [Psi]. *)
Lemma mode_object_update_chol :
  let o' := update_chol scalar_llt_matrixU scalar_lu_inverse mode_object in
  m_W o' = m_W mode_object /\ m_sW o' = m_sW mode_object /\ m_L o' = m_L mode_object.
Proof.
  intro o'.
  assert (Hneg : minCoeff (W_of mode_object) < 0) by (rewrite W_of_mode_object; simpl; lra).
  destruct (update_chol_W scalar_llt_matrixU scalar_lu_inverse mode_object) as (HW & _).
  destruct (update_chol_indefinite scalar_llt_matrixU scalar_lu_inverse mode_object Hneg)
    as (HsW & HL).
  fold o' in HW, HsW, HL. rewrite W_of_mode_object in HW, HsW, HL.
  split; [exact HW|]. split.
  - rewrite HsW. simpl. now rewrite signed_sqrt_4_25.
  - rewrite HL. change [- (4 / 25)] with (m_W mode_object) at 2.
    rewrite A_of_mode_object_W. unfold scalar_lu_inverse, entry. simpl.
    unfold asDiagonal_mul, vmull. simpl. do 2 f_equal. lra.
Qed.

Lemma mode_object_stationary : get_gradient_wrt_alpha mode_object [0] = Ok [0].
Proof.
  rewrite get_gradient_wrt_alpha_spec by reflexivity.
  unfold gradient_of_alpha, f_of_alpha, K_scale2, scale. simpl. rewrite exp_0.
  unfold mulv, dot, cwiseProduct, vsub, vadd, vmulr, sum. simpl. do 2 f_equal. field.
Qed.

Lemma Psi_of_mode_object :
  Psi_of mode_object (m_alpha mode_object) (m_mu mode_object)
         (get_mean_vector (m_mean mode_object) (m_features mode_object))
  = 9 / 50 + ln PI + ln 10.
Proof.
  unfold Psi_of, dot, cwiseProduct, vsub, sum. simpl.
  replace (1 + (18 / 5 - 3 / 5) * (18 / 5 - 3 / 5)) with 10 by lra. lra.
Qed.

(** C1.  At the posterior mode of the concrete problem, where
    [W = −4/25 < 0], [get_negative_log_marginal_likelihood] takes the
    determinant of [I + K·scale²·diag(sW) = 3/5], whereas the matrix
    [A = I + K·scale²·diag(W)] that [update_chol] and [update_deriv]
    factorise is [21/25]; the value returned differs from the one built on
    the determinant of [A]. *)
Theorem C1_nlml_indefinite_determinant :
  let returned :=
    fst (get_negative_log_marginal_likelihood scalar_llt_solve scalar_llt_matrixU
           determinant scalar_lu_inverse midpoint_min (fun o => o) mode_object) in
  minCoeff (m_W mode_object) < 0
  /\ returned = Ok (9 / 50 + ln PI + ln 10 + ln (3 / 5) / 2)
  /\ nlml_indefinite determinant mode_object = 9 / 50 + ln PI + ln 10 + ln (21 / 25) / 2
  /\ returned <> Ok (nlml_indefinite determinant mode_object).
Proof.
  intro returned.
  assert (Hneg : minCoeff (m_W mode_object) < 0) by (simpl; lra).
  assert (Hcode : returned = Ok (9 / 50 + ln PI + ln 10 + ln (3 / 5) / 2)).
  { unfold returned.
    rewrite get_negative_log_marginal_likelihood_indefinite by (trivial; reflexivity).
    cbn [fst]. rewrite Psi_of_mode_object, A_of_mode_object_sW.
    unfold determinant. simpl. replace (3 / 5 * 1 - 0) with (3 / 5) by lra. reflexivity. }
  assert (Hspec : nlml_indefinite determinant mode_object
                  = 9 / 50 + ln PI + ln 10 + ln (21 / 25) / 2).
  { unfold nlml_indefinite. rewrite Psi_of_mode_object, A_of_mode_object_W.
    unfold determinant. simpl. replace (21 / 25 * 1 - 0) with (21 / 25) by lra. reflexivity. }
  repeat split; trivial.
  rewrite Hcode, Hspec. intro H. injection H as H.
  assert (Hln : ln (3 / 5) < ln (21 / 25)) by (apply ln_increasing; lra).
  lra.
Qed.

(** C2, as stated, fails: with [Psi_Old = 0], [Psi_New = 1] after the first
    iteration and the default optimizer, [|Psi_Old − Psi_New|] exceeds the
    tolerance and the cap is not reached, yet the loop stops. *)
Lemma C2_loop_stops_when_Psi_rises :
  loop_cond_abs init stalled_state
  /\ loop_cond init stalled_state = false
  /\ run_loop scalar_llt_solve midpoint_min init stalled_state = stalled_state.
Proof.
  assert (Hcond : loop_cond init stalled_state = false).
  { unfold loop_cond. simpl. unfold Rgtb.
    replace (Rltb 1e-6 (0 - 1)) with false; trivial.
    symmetry. apply Rltb_false. lra. }
  split; [|split; trivial].
  - unfold loop_cond_abs. simpl. split; [|lia].
    rewrite Rabs_left; lra.
  - rewrite run_loop_unfold. now rewrite Hcond.
Qed.

(** ** The theorems at concrete inputs *)

Lemma C2_newton_loop_witness :
  0 <= m_tolerance init
  /\ exists r,
      minimize scalar_llt_solve midpoint_min init (Some mode_object) = Ok r
      /\ (warned_max_iterations r = true ->
          forall p, In p (psi_reached scalar_llt_solve midpoint_min init mode_object) ->
                    returned_Psi r <= p).
Proof.
  assert (H : 0 <= m_tolerance init) by (simpl; lra).
  split; [exact H|].
  destruct (C2_newton_loop scalar_llt_solve midpoint_min init mode_object)
    as (_ & _ & _ & r & Hr & _ & _ & _ & _ & Hbest).
  exists r. split; [exact Hr|]. intro Hw. exact (proj2 (Hbest H Hw)).
Defined.

Lemma W_of_concave_object : W_of concave_object = [2].
Proof. unfold W_of, SGVector_scale, vmulr. simpl. f_equal. field. Qed.

Lemma C3_update_chol_psd_branch_witness :
  let o' := update_chol scalar_llt_matrixU scalar_lu_inverse concave_object in
  0 <= minCoeff (m_W o')
  /\ m_sW o' = cwiseSqrt (m_W o')
  /\ m_L o' = scalar_llt_matrixU (B_of concave_object (m_sW o')).
Proof.
  intro o'.
  assert (H : 0 <= minCoeff (m_W o')).
  { unfold o'.
    rewrite (proj1 (update_chol_W scalar_llt_matrixU scalar_lu_inverse concave_object)).
    rewrite W_of_concave_object. simpl. lra. }
  split; [exact H|].
  exact (proj2 (C3_update_chol_psd_branch scalar_llt_matrixU scalar_lu_inverse
                  concave_object H)).
Defined.

Lemma C4_newton_regularization_witness :
  minCoeff (m_W (target stalled_state)) < 0
  /\ m_W (regularize_W (target stalled_state)) = regularized_W 1 [- (4 / 25)] [3 / 5]
  /\ m_sW (target (loop_body scalar_llt_solve midpoint_min init stalled_state))
     = cwiseSqrt (regularized_W 1 [- (4 / 25)] [3 / 5]).
Proof.
  assert (H : minCoeff (m_W (target stalled_state)) < 0) by (simpl; lra).
  split; [exact H|].
  destruct (C4_newton_regularization scalar_llt_solve midpoint_min init stalled_state H)
    as (HW & _ & HsW).
  split; [exact HW | exact HsW].
Defined.

Lemma C5_alpha_f_consistent_witness :
  num_rows (m_ktrtr mode_object)
  = length (get_mean_vector (m_mean mode_object) (m_features mode_object))
  /\ consistent (update_init mode_object)
  /\ match update_alpha scalar_llt_solve midpoint_min mode_object with
     | (Ok _, o') => consistent o'
     | (Raise _, _) => m_minimizer mode_object = OtherMinimizer
     end.
Proof.
  assert (H : num_rows (m_ktrtr mode_object)
              = length (get_mean_vector (m_mean mode_object) (m_features mode_object)))
    by reflexivity.
  split; [exact H|].
  destruct (C5_alpha_f_consistent scalar_llt_solve midpoint_min mode_object)
    as (_ & Hinit & Halpha).
  split; [exact (Hinit H) | exact Halpha].
Defined.

Lemma C6_derivative_wrt_mean_witness :
  let o' := update_deriv scalar_lu_inverse scalar_upper_solve scalar_upper_solve mode_object in
  (0 < get_num_elements mean_parameter)%nat
  /\ m_dfhat o' = cwiseProduct (m_g o') (m_d3lp mode_object)
  /\ exists g,
      get_derivative_wrt_mean (Some mean_parameter) o' = (Ok g, o')
      /\ length g = 1%nat
      /\ nth 0 g 0 = mean_gradient o' (dmean_of o' mean_parameter 0).
Proof.
  intro o'.
  assert (H : (0 < get_num_elements mean_parameter)%nat) by (simpl; lia).
  split; [exact H|].
  exact (C6_derivative_wrt_mean scalar_lu_inverse scalar_upper_solve scalar_upper_solve
           mode_object mean_parameter 0 H).
Defined.

Lemma C7_update_init_zero_alpha_witness :
  length (m_alpha cold_object) <> get_num_labels (m_labels cold_object)
  /\ m_alpha (update_init cold_object) = [0]
  /\ m_mu (update_init cold_object) = [0]
  /\ m_Psi (update_init cold_object)
     = - sum (get_log_probability_f cauchy_likelihood [18 / 5] [0]).
Proof.
  assert (Hlen : length (m_alpha cold_object) <> get_num_labels (m_labels cold_object))
    by (simpl; discriminate).
  split; [exact Hlen|].
  exact (proj1 (C7_update_init_zero_alpha cold_object) Hlen).
Defined.

Lemma C9_derivative_wrt_inference_method_witness :
  m_name mean_parameter <> "log_scale"%string
  /\ (exists e, get_derivative_wrt_inference_method mean_parameter mode_object
                = (Raise e, mode_object))
  /\ m_name log_scale_parameter = "log_scale"%string
  /\ (exists g, get_derivative_wrt_inference_method log_scale_parameter mode_object
                = (Ok [g], mode_object)).
Proof.
  assert (Hne : m_name mean_parameter <> "log_scale"%string) by (simpl; discriminate).
  assert (Heq : m_name log_scale_parameter = "log_scale"%string) by reflexivity.
  split; [exact Hne|]. split.
  - exact (proj1 (C9_derivative_wrt_inference_method mode_object mean_parameter) Hne).
  - split; [exact Heq|].
    exact (proj2 (C9_derivative_wrt_inference_method mode_object log_scale_parameter) Heq).
Defined.

Lemma C10_update_init_warm_start_witness :
  length (m_alpha mode_object) = get_num_labels (m_labels mode_object)
  /\ m_Psi (update_init mode_object)
     = Rmin (Psi_of_alpha mode_object (m_alpha mode_object) [0])
            (- sum (get_log_probability_f cauchy_likelihood [18 / 5] [0])).
Proof.
  assert (H : length (m_alpha mode_object) = get_num_labels (m_labels mode_object))
    by reflexivity.
  split; [exact H|].
  exact (proj1 (C10_update_init_warm_start mode_object H)).
Defined.

(** ** The further theorems at concrete inputs *)

Lemma mode_object_consistent : consistent mode_object.
Proof.
  unfold consistent, f_of_alpha, K_scale2, scale. simpl. rewrite exp_0.
  unfold mulv, dot, cwiseProduct, vadd, sum. simpl. f_equal. lra.
Qed.

Lemma minimize_without_iterations_witness :
  (m_iter no_iteration_optimizer <= 0)%Z
  /\ exists r,
      minimize scalar_llt_solve midpoint_min no_iteration_optimizer (Some mode_object) = Ok r
      /\ returned_Psi r = m_Psi mode_object
      /\ warned_max_iterations r = true
      /\ m_alpha (target_after r) = m_alpha mode_object
      /\ m_mu (target_after r) = m_mu mode_object.
Proof.
  assert (H : (m_iter no_iteration_optimizer <= 0)%Z) by (simpl; lia).
  split; [exact H|].
  exact (minimize_without_iterations scalar_llt_solve midpoint_min
           no_iteration_optimizer mode_object H).
Defined.

Lemma minimize_iteration_count_witness :
  (1 <= m_iter init)%Z
  /\ (1 <= iter (run_loop scalar_llt_solve midpoint_min init (loop_entry mode_object)))%Z.
Proof.
  assert (H : (1 <= m_iter init)%Z) by (simpl; lia).
  split; [exact H|].
  exact (proj2 (minimize_iteration_count scalar_llt_solve midpoint_min init mode_object) H).
Defined.

Lemma minimize_keeps_consistent_witness :
  consistent mode_object
  /\ exists r,
      minimize scalar_llt_solve midpoint_min init (Some mode_object) = Ok r
      /\ consistent (target_after r)
      /\ (m_minimizer mode_object = Newton init ->
          update_alpha scalar_llt_solve midpoint_min mode_object = (Ok tt, target_after r)).
Proof.
  split; [exact mode_object_consistent|].
  exact (minimize_keeps_consistent scalar_llt_solve midpoint_min init mode_object
           mode_object_consistent).
Defined.

Lemma update_deriv_after_update_chol_indefinite_witness :
  minCoeff (W_of mode_object) < 0
  /\ m_Z (update_deriv scalar_lu_inverse scalar_upper_solve scalar_upper_solve
            (update_chol scalar_llt_matrixU scalar_lu_inverse mode_object))
     = asDiagonal_mul (W_of mode_object)
         (scalar_lu_inverse (A_of mode_object (W_of mode_object))).
Proof.
  assert (H : minCoeff (W_of mode_object) < 0) by (rewrite W_of_mode_object; simpl; lra).
  split; [exact H|].
  exact (proj1 (update_deriv_after_update_chol_indefinite scalar_llt_matrixU
                  scalar_lu_inverse scalar_upper_solve scalar_upper_solve mode_object H)).
Defined.

Lemma accessors_cache_witness :
  exists v,
    get_negative_log_marginal_likelihood scalar_llt_solve scalar_llt_matrixU determinant
      scalar_lu_inverse midpoint_min (fun o => o) mode_object = (Ok v, mode_object)
    /\ parameter_hash_changed mode_object = false
    /\ get_negative_log_marginal_likelihood scalar_llt_solve scalar_llt_matrixU determinant
         scalar_lu_inverse midpoint_min (fun o => o) mode_object = (Ok v, mode_object).
Proof.
  assert (Hneg : minCoeff (m_W mode_object) < 0) by (simpl; lra).
  pose proof (get_negative_log_marginal_likelihood_indefinite scalar_llt_solve
                scalar_llt_matrixU determinant scalar_lu_inverse midpoint_min (fun o => o)
                mode_object eq_refl Hneg) as H.
  eexists. split; [exact H|].
  exact (proj1 (accessors_cache scalar_llt_solve scalar_llt_matrixU determinant
                  scalar_lu_inverse midpoint_min (fun o => o) mode_object mode_object) _ H).
Defined.

Lemma get_gradient_needs_variable_reference_witness :
  m_alpha mode_object <> []
  /\ exists e, get_gradient (set_target cost_function_init mode_object) = Raise e.
Proof.
  assert (H : m_alpha mode_object <> []) by (simpl; discriminate).
  split; [exact H|].
  exact (proj2 (get_gradient_needs_variable_reference cost_function_init mode_object) H).
Defined.

Lemma mode_object_fixed_point :
  m_alpha mode_object
  = get_log_probability_derivative_f (m_model mode_object) (m_labels mode_object)
      (f_of_alpha mode_object (m_alpha mode_object) (m_mean_f mode_object)) 1.
Proof.
  rewrite <- mode_object_consistent. simpl. f_equal. field.
Qed.

Lemma gradient_vanishes_at_fixed_point_witness :
  m_alpha mode_object
  = get_log_probability_derivative_f (m_model mode_object) (m_labels mode_object)
      (f_of_alpha mode_object (m_alpha mode_object) (m_mean_f mode_object)) 1
  /\ get_gradient_wrt_alpha mode_object (m_alpha mode_object) = Ok [0].
Proof.
  split; [exact mode_object_fixed_point|].
  exact (gradient_vanishes_at_fixed_point mode_object mode_object_fixed_point).
Defined.

Lemma update_init_Psi_is_cost_witness :
  num_rows (m_ktrtr mode_object)
  = length (get_mean_vector (m_mean mode_object) (m_features mode_object))
  /\ m_Psi (update_init mode_object) = get_psi_wrt_alpha (update_init mode_object).
Proof.
  assert (H : num_rows (m_ktrtr mode_object)
              = length (get_mean_vector (m_mean mode_object) (m_features mode_object)))
    by reflexivity.
  split; [exact H|]. exact (update_init_Psi_is_cost mode_object H).
Defined.

Lemma regularize_W_never_lowers_witness :
  length (m_dlp mode_object) = length (m_W mode_object)
  /\ 0 < get_degrees_freedom (m_model mode_object)
  /\ Forall2 Rle (m_W mode_object) (m_W (regularize_W mode_object)).
Proof.
  assert (Hlen : length (m_dlp mode_object) = length (m_W mode_object)) by reflexivity.
  assert (Hdf : 0 < get_degrees_freedom (m_model mode_object)) by (simpl; lra).
  split; [exact Hlen|]. split; [exact Hdf|].
  exact (regularize_W_never_lowers mode_object Hlen (fun _ => Hdf)).
Defined.

Lemma log_scale_derivative_is_twice_kernel_derivative_witness :
  m_name log_scale_parameter = "log_scale"%string
  /\ get_num_elements log_scale_parameter = 1%nat
  /\ unit_kernel_gradient mode_object log_scale_parameter None = m_ktrtr mode_object
  /\ exists g,
      get_derivative_wrt_kernel unit_kernel_gradient (Some log_scale_parameter) mode_object
      = (Ok [g], mode_object)
      /\ get_derivative_wrt_inference_method log_scale_parameter mode_object
         = (Ok [2 * g], mode_object).
Proof.
  repeat split.
  exact (proj2 (log_scale_derivative_is_twice_kernel_derivative unit_kernel_gradient
                  mode_object log_scale_parameter log_scale_parameter)
           eq_refl eq_refl eq_refl).
Defined.


Lemma get_posterior_mean_is_K_alpha_witness :
  ret tt mode_object = (Ok tt, mode_object)
  /\ consistent mode_object
  /\ m_mean_f mode_object
     = get_mean_vector (m_mean mode_object) (m_features mode_object)
  /\ num_rows (m_ktrtr mode_object) = length (m_mean_f mode_object)
  /\ get_posterior_mean (ret tt) mode_object
     = (Ok (mulv (K_scale2 mode_object) (m_alpha mode_object)), mode_object).
Proof.
  repeat split; try exact mode_object_consistent.
  exact (get_posterior_mean_is_K_alpha (ret tt) mode_object mode_object
           eq_refl mode_object_consistent eq_refl eq_refl).
Defined.

Lemma unit_kernel_symmetric : symmetric (m_ktrtr mode_object).
Proof. intros [|[|i]] [|[|j]]; reflexivity. Qed.

Lemma update_approx_cov_symmetric_witness :
  square (m_ktrtr mode_object)
  /\ symmetric (m_ktrtr mode_object)
  /\ symmetric (update_approx_cov scalar_upper_solve mode_object).
Proof.
  assert (Hsq : square (m_ktrtr mode_object)) by (repeat constructor).
  split; [exact Hsq|]. split; [exact unit_kernel_symmetric|].
  exact (update_approx_cov_symmetric scalar_upper_solve mode_object Hsq unit_kernel_symmetric).
Defined.
